(** * Section-tree construction from Markdown headings

    A shallow embedding of [utils/build_section_tree_md_only.py]: the
    heading extractor [parse_markdown_headings] and the tree builder
    [build_tree_markdown_levels], with the properties of both. *)

From Stdlib Require Import ZArith NArith List Bool Lia String Ascii.
From stdpp Require Import base option list.
Import ListNotations.

Local Open Scope Z_scope.

(** ** Text

    A Python [str] is a sequence of Unicode code points. *)

Definition char := N.
Definition str := list char.

Definition str_of (s : string) : str :=
  List.map N_of_ascii (list_ascii_of_string s).

(** ** Heading nodes and the object store

    [HeadingNode] objects are mutable and shared: the builder keeps a
    node on its stack while the same object sits in its parent's
    [children]. The store maps an address (the index) to the object's
    current fields; [children] holds references. *)

Abbreviation addr := nat.

Record HeadingNode := mkHeadingNode {
  title : str;
  level : Z;
  page : option Z;
  children : list addr
}.

Abbreviation store := (list HeadingNode).

Definition ROOT : HeadingNode :=
  mkHeadingNode (str_of "ROOT") 0 None [].

(** Reading [a.level]. A Python reference always denotes a live object;
    the value read at an address outside the store is never used by a
    run that starts from live references. *)
Definition level_at (s : store) (a : addr) : Z :=
  match s !! a with Some n => level n | None => 0 end.

Definition children_at (s : store) (a : addr) : list addr :=
  match s !! a with Some n => children n | None => [] end.

(** [parent.children.append(h)] *)
Definition append_child (s : store) (parent h : addr) : store :=
  alter (fun n => mkHeadingNode (title n) (level n) (page n) (children n ++ [h]))
        parent s.

(** ** The tree builder

    The stack is a Python list used from its end; here the head of the
    list is the top ([stack[-1]]), so [rev stack] reads bottom to top. *)

(** [while stack and stack[-1].level >= h.level: stack.pop()] *)
Fixpoint pop_while (s : store) (lvl : Z) (stack : list addr) : list addr :=
  match stack with
  | top :: rest =>
      if lvl <=? level_at s top then pop_while s lvl rest else stack
  | [] => []
  end.

Definition loop_body (root : addr) (st : store * list addr) (h : addr)
  : store * list addr :=
  let '(s, stack) := st in
  let stack1 := pop_while s (level_at s h) stack in
  let parent := match stack1 with top :: _ => top | [] => root end in
  (append_child s parent h, h :: stack1).

Definition run_loop (root : addr) (st : store * list addr) (hs : list addr)
  : store * list addr :=
  fold_left (loop_body root) hs st.

(** The result of [to_dict]: a JSON-like tree. *)
#[local] Unset Elimination Schemes.
Inductive dict :=
  Dict (d_title : str) (d_level : Z) (d_page : option Z) (d_children : list dict).

#[local] Set Elimination Schemes.

Definition d_level (t : dict) : Z := let '(Dict _ l _ _) := t in l.
Definition d_title (t : dict) : str := let '(Dict x _ _ _) := t in x.
Definition d_page (t : dict) : option Z := let '(Dict _ _ p _) := t in p.
Definition d_children (t : dict) : list dict := let '(Dict _ _ _ c) := t in c.

(** [HeadingNode.to_dict]. [depth] is the number of nested calls of
    [to_dict], one per level of the tree, that the recursion limit of the
    interpreter still allows; [None] is its [RecursionError]. What a
    level costs in frames of the interpreter is in [to_dict_frames]. *)
Fixpoint to_dict (depth : nat) (s : store) (a : addr) : option dict :=
  match depth with
  | O => None
  | S d =>
      match s !! a with
      | None => None
      | Some n =>
          match mapM (to_dict d s) (children n) with
          | None => None
          | Some cs => Some (Dict (title n) (level n) (page n) cs)
          end
      end
  end.

(** The root is a fresh object: it gets the first unused address. *)
Definition build_store (s : store) (headings : list addr) : store * list addr :=
  run_loop (length s) (s ++ [ROOT], []) headings.

Definition build_tree_markdown_levels (depth : nat) (s : store) (headings : list addr)
  : option dict :=
  to_dict depth (fst (build_store s headings)) (length s).

(** [to_dict] by the frames of the interpreter. A call of [to_dict]
    takes one frame; the list comprehension of its body takes another
    one where comprehensions run in a frame of their own (CPython up to
    3.11, [own_frame = true]) and none where they are inlined (from 3.12
    on). [frames] is the number of frames the recursion limit still
    allows. *)
Fixpoint to_dict_frames (own_frame : bool) (frames : nat) (s : store) (a : addr)
  : option dict :=
  match frames with
  | O => None
  | S f =>
      match s !! a with
      | None => None
      | Some n =>
          match
            (if own_frame
             then match f with
                  | O => None
                  | S f' => mapM (to_dict_frames own_frame f' s) (children n)
                  end
             else mapM (to_dict_frames own_frame f s) (children n))
          with
          | None => None
          | Some cs => Some (Dict (title n) (level n) (page n) cs)
          end
      end
  end.

(** The frames one level of the tree takes. *)
Definition frame_cost (own_frame : bool) : nat := if own_frame then 2%nat else 1%nat.

(** The levels a number of frames allows. *)
Definition levels_allowed (own_frame : bool) (frames : nat) : nat :=
  if own_frame then Nat.div2 frames else frames.

Definition build_tree_frames (own_frame : bool) (frames : nat) (s : store)
  (headings : list addr) : option dict :=
  to_dict_frames own_frame frames (fst (build_store s headings)) (length s).

(** A flat heading sequence, as the extractor makes it: live objects
    that have no children yet. *)
Definition flat (s : store) (hs : list addr) : Prop :=
  Forall (fun a => exists n, s !! a = Some n /\ children n = []) hs.

(** [HeadingNode(title=..., level=..., page=...)]: [children] defaults
    to the empty list. *)
Definition heading (t : str) (l : Z) (p : option Z) : HeadingNode :=
  mkHeadingNode t l p [].

(** The nearest preceding heading with a strictly smaller level;
    [preceding] lists the earlier headings, the most recent first. *)
Fixpoint nearest_smaller (s : store) (lvl : Z) (preceding : list addr) : option addr :=
  match preceding with
  | [] => None
  | a :: rest => if level_at s a <? lvl then Some a else nearest_smaller s lvl rest
  end.

Definition parent_of (s : store) (root : addr) (preceding : list addr) (h : addr) : addr :=
  match nearest_smaller s (level_at s h) preceding with
  | Some p => p
  | None => root
  end.

(** The headings of [hs] whose parent is [x], in order. *)
Fixpoint kids (s : store) (root x : addr) (preceding hs : list addr) : list addr :=
  match hs with
  | [] => []
  | h :: rest =>
      (if Nat.eqb (parent_of s root preceding h) x then [h] else [])
      ++ kids s root x (h :: preceding) rest
  end.

(** Every child in the tree lies strictly deeper than its parent. *)
Fixpoint levels_increase (t : dict) : bool :=
  match t with
  | Dict _ l _ cs =>
      forallb (fun c => (l <? d_level c) && levels_increase c) cs
  end.

(** Levels along a list, each compared with the next. *)
Fixpoint chain (R : Z -> Z -> Prop) (ls : list Z) : Prop :=
  match ls with
  | a :: (b :: _) as rest => R a b /\ chain R rest
  | _ => True
  end.

Definition stack_levels_bottom_up (st : store * list addr) : list Z :=
  List.map (level_at (fst st)) (rev (snd st)).

(** The sequence of the nesting example: levels 1, 2, 3, 2, 1 with
    the titles A to E, on any pages. *)
Definition nesting_example (pa pb pc pd pe : option Z) : store :=
  [heading (str_of "A") 1 pa; heading (str_of "B") 2 pb; heading (str_of "C") 3 pc;
   heading (str_of "D") 2 pd; heading (str_of "E") 1 pe].

(** A level jump: level 1 directly followed by level 3. *)
Definition jump_example : store :=
  [heading (str_of "A") 1 None; heading (str_of "B") 3 None].

(** ** Character classes of the interpreter

    [str.isspace], which is also the class [\s] of [re] on [str]
    patterns and the set [str.strip] removes. *)
Definition whitespace : list char :=
  [9; 10; 11; 12; 13; 28; 29; 30; 31; 32; 133; 160; 5760;
   8192; 8193; 8194; 8195; 8196; 8197; 8198; 8199; 8200; 8201; 8202;
   8232; 8233; 8239; 8287; 12288]%N.

Definition isspace (c : char) : bool := existsb (N.eqb c) whitespace.

(** The line boundaries of [str.splitlines]. *)
Definition line_boundaries : list char :=
  [10; 11; 12; 13; 28; 29; 30; 133; 8232; 8233]%N.

Definition is_linebreak (c : char) : bool := existsb (N.eqb c) line_boundaries.

Definition LF : char := 10%N.
Definition CR : char := 13%N.
Definition HASH : char := 35%N.
Definition BACKTICK : char := 96%N.
Definition TILDE : char := 126%N.

(** [.] without DOTALL: any character but the newline. *)
Definition dot (c : char) : bool := negb (N.eqb c LF).

(** ** [str] methods *)

Fixpoint lstrip (s : str) : str :=
  match s with
  | c :: s' => if isspace c then lstrip s' else s
  | [] => []
  end.

Definition rstrip (s : str) : str := rev (lstrip (rev s)).

Definition strip (s : str) : str := rstrip (lstrip s).

(** A text without whitespace at either end. *)
Definition trimmed (t : str) : bool :=
  match t with c :: _ => negb (isspace c) | [] => true end
  && match rev t with c :: _ => negb (isspace c) | [] => true end.

(** [str.splitlines()]: [cur] is the line read so far, reversed. A
    carriage return directly followed by a line feed is one boundary;
    there is no empty last line after a final boundary. *)
Fixpoint splitlines_from (cur : str) (s : str) : list str :=
  match s with
  | [] => match cur with [] => [] | _ => [rev cur] end
  | c :: s' =>
      if is_linebreak c then
        rev cur ::
        match s' with
        | c' :: s'' =>
            if N.eqb c CR && N.eqb c' LF then splitlines_from [] s''
            else splitlines_from [] s'
        | [] => splitlines_from [] s'
        end
      else splitlines_from (c :: cur) s'
  end.

Definition splitlines (s : str) : list str := splitlines_from [] s.

(** A text that holds no line boundary, as every line [splitlines]
    returns. *)
Definition is_line (l : str) : bool := forallb (fun c => negb (is_linebreak c)) l.

(** ** Regular expressions

    The fragment of [re] the module uses: anchors, repetition of a
    one-character class (greedy or lazy, as the engine's REPEAT_ONE and
    MIN_REPEAT_ONE), sequence, alternation and capturing groups, matched
    by backtracking in the engine's order of preference. *)

Inductive regex :=
| Eps
| Bol
| Eol
| Rep (lazy : bool) (lo : nat) (hi : option nat) (cls : char -> bool)
| Cat (r1 r2 : regex)
| Alt (r1 r2 : regex)
| Group (i : nat) (r : regex).

Definition groups := list (nat * str).

(** A continuation receives the position, the rest of the text and
    the groups captured so far. *)
Definition cont := nat -> str -> groups -> option groups.

Fixpoint first_some {A B} (f : A -> option B) (xs : list A) : option B :=
  match xs with
  | [] => None
  | x :: rest => match f x with Some r => Some r | None => first_some f rest end
  end.

(** The length of the longest prefix of [s] inside [cls]. *)
Fixpoint run (cls : char -> bool) (s : str) : nat :=
  match s with
  | c :: s' => if cls c then S (run cls s') else O
  | [] => O
  end.

Definition capped (hi : option nat) (n : nat) : nat :=
  match hi with Some h => Nat.min h n | None => n end.

(** The repetition counts the engine tries, in its order: from the
    longest down when greedy, from the shortest up when lazy. *)
Definition counts (lazy : bool) (lo : nat) (hi : option nat) (cls : char -> bool) (s : str)
  : list nat :=
  let n := capped hi (run cls s) in
  let up := seq lo (S n - lo) in
  if lazy then up else rev up.

(** [$] without MULTILINE: the end, or just before a final newline. *)
Definition at_eol (s : str) : bool :=
  match s with
  | [] => true
  | [c] => N.eqb c LF
  | _ => false
  end.

Fixpoint rx (r : regex) (k : cont) (pos : nat) (s : str) (g : groups) : option groups :=
  match r with
  | Eps => k pos s g
  | Bol => if Nat.eqb pos 0 then k pos s g else None
  | Eol => if at_eol s then k pos s g else None
  | Rep lazy lo hi cls =>
      first_some (fun j => k (pos + j)%nat (skipn j s) g) (counts lazy lo hi cls s)
  | Cat r1 r2 => rx r1 (rx r2 k) pos s g
  | Alt r1 r2 =>
      match rx r1 k pos s g with
      | Some res => Some res
      | None => rx r2 k pos s g
      end
  | Group i r1 =>
      rx r1 (fun pos' s' g' => k pos' s' ((i, firstn (pos' - pos) s) :: g')) pos s g
  end.

(** The number of marker characters a line starts with. *)
Definition marker_count (line : str) : nat := run (N.eqb HASH) line.

(** The end of the pattern: the match is found, with its groups. *)
Definition accept : cont := fun _ _ g => Some g.

(** [pattern.match(s)]: anchored at the start, any end. *)
Definition re_match (r : regex) (s : str) : option groups :=
  rx r accept O s [].

(** [m.group(i)] *)
Fixpoint group (i : nat) (g : groups) : str :=
  match g with
  | [] => []
  | (j, t) :: rest => if Nat.eqb i j then t else group i rest
  end.

Definition cat (rs : list regex) : regex := fold_right Cat Eps rs.
Definition star (cls : char -> bool) : regex := Rep false 0 None cls.
Definition plus (cls : char -> bool) : regex := Rep false 1 None cls.
Definition chr (c : char) : regex := Rep false 1 (Some 1%nat) (N.eqb c).
Definition lit (s : string) : regex := cat (List.map chr (str_of s)).

(** [header_rx = re.compile(r'^(#{1,6})\s+(.+?)\s*$')] *)
Definition header_rx : regex :=
  cat [Bol; Group 1 (Rep false 1 (Some 6%nat) (N.eqb HASH)); plus isspace;
       Group 2 (Rep true 1 None dot); star isspace; Eol].

(** [code_block_rx = re.compile(r'^\s*(`{3,}|~{3,})')] *)
Definition code_block_rx : regex :=
  cat [Bol; star isspace;
       Group 1 (Alt (Rep false 3 None (N.eqb BACKTICK)) (Rep false 3 None (N.eqb TILDE)))].

(** The local variables of [parse_markdown_headings]: [page] (here
    [cur_page]), [in_code_block] and [headings]. The heading objects it
    makes are fresh and childless; the list holds their fields in
    order. *)
Record locals := mkLocals {
  cur_page : option Z;
  in_code_block : bool;
  headings : list HeadingNode
}.

Definition initial : locals := mkLocals None false [].

Section Extractor.

(** The two facts about the interpreter the module depends on and its
    source does not fix: the decimal value of a character of class
    [\d] (the Unicode database of the interpreter), and the limit on
    the digits [int] converts ([sys.get_int_max_str_digits()]: [0]
    for none, otherwise no less than 640). *)
Variable todecimal : char -> option Z.
Variable max_str_digits : nat.

Definition isdecimal (c : char) : bool :=
  match todecimal c with Some _ => true | None => false end.

Fixpoint decimal_value (acc : Z) (s : str) : option Z :=
  match s with
  | [] => Some acc
  | c :: s' =>
      match todecimal c with
      | Some d => decimal_value (10 * acc + d) s'
      | None => None
      end
  end.

(** [int(s)] on a text of decimal digits, which is all group 1 of
    [page_rx] can hold; [None] is [ValueError]. *)
Definition py_int (s : str) : option Z :=
  match s with
  | [] => None
  | _ =>
      if Nat.ltb 0 max_str_digits && Nat.ltb max_str_digits (length s)
      then None
      else decimal_value 0 s
  end.

(** [page_rx = re.compile(r'^\s*<!--PAGE:\s*(\d+)\s*-->\s*$')] *)
Definition page_rx : regex :=
  cat [Bol; star isspace; lit "<!--PAGE:"; star isspace; Group 1 (plus isdecimal);
       star isspace; lit "-->"; star isspace; Eol].

(** The body of [for line in md_text.splitlines()]. *)
Definition step (st : locals) (line : str) : locals :=
  match re_match code_block_rx line with
  | Some _ => mkLocals (cur_page st) (negb (in_code_block st)) (headings st)
  | None =>
      if in_code_block st then st
      else
        let stripped := strip line in
        match stripped with
        | [] => st
        | _ =>
            match re_match page_rx stripped with
            | Some mpage =>
                match py_int (group 1 mpage) with
                | Some n => mkLocals (Some n) (in_code_block st) (headings st)
                | None => st
                end
            | None =>
                match re_match header_rx line with
                | Some mh =>
                    let level := Z.of_nat (length (group 1 mh)) in
                    let title := strip (group 2 mh) in
                    mkLocals (cur_page st) (in_code_block st)
                             (headings st ++ [heading title level (cur_page st)])
                | None => st
                end
            end
        end
  end.

Definition scan (st : locals) (lines : list str) : locals :=
  fold_left step lines st.

Definition parse_markdown_headings (md_text : str) : list HeadingNode :=
  headings (scan initial (splitlines md_text)).

End Extractor.

(** [main]: the headings of the text, as fresh objects at the
    addresses 0, 1, ..., handed to the builder. *)
Definition section_tree (todecimal : char -> option Z) (max_str_digits depth : nat)
  (md_text : str) : option dict :=
  let hs := parse_markdown_headings todecimal max_str_digits md_text in
  build_tree_markdown_levels depth hs (seq 0 (length hs)).

Definition section_tree_frames (todecimal : char -> option Z) (max_str_digits : nat)
  (own_frame : bool) (frames : nat) (md_text : str) : option dict :=
  let hs := parse_markdown_headings todecimal max_str_digits md_text in
  build_tree_frames own_frame frames hs (seq 0 (length hs)).

(** The restriction of the decimal table to ASCII, on which every
    version of the Unicode database agrees. *)
Definition ascii_decimal (c : char) : option Z :=
  if (N.leb 48 c && N.leb c 57)%N then Some (Z.of_N c - 48) else None.

Definition agrees_on_ascii (todecimal : char -> option Z) : bool :=
  forallb (fun n => let c := N.of_nat n in
                    match todecimal c, ascii_decimal c with
                    | Some a, Some b => Z.eqb a b
                    | None, None => true
                    | _, _ => false
                    end)
          (seq 0 128).

(** The text of the page example: a marker for page 3, the heading A,
    a marker for page 7, the heading B, one per line. *)
Definition page_example : str :=
  str_of "<!--PAGE:3-->" ++ [LF] ++ str_of "# A" ++ [LF]
  ++ str_of "<!--PAGE:7-->" ++ [LF] ++ str_of "# B".

Definition PAGE_OPEN : str := str_of "<!--PAGE:".
Definition PLUS : char := 43%N.
Definition MINUS : char := 45%N.

(** ** Shapes of lines, counts and measures used in the further properties *)

Definition LT : char := 60%N.
Definition PAGE_CLOSE : str := str_of "-->".

(** After its leading whitespace the line starts with three backticks
    or three tildes. *)
Definition fence_shape (line : str) : bool :=
  match lstrip line with
  | a :: b :: c :: _ =>
      (N.eqb a BACKTICK && N.eqb b BACKTICK && N.eqb c BACKTICK)
      || (N.eqb a TILDE && N.eqb b TILDE && N.eqb c TILDE)
  | _ => false
  end.

(** One to six markers at the start, then a whitespace character, then
    at least one more character. *)
Definition heading_shape (line : str) : bool :=
  Nat.leb 1 (marker_count line) && Nat.leb (marker_count line) 6
  && match skipn (marker_count line) line with
     | c :: _ :: _ => isspace c
     | _ => false
     end.

(** The lines of heading shape that lie outside the fences. *)
Fixpoint count_heading_lines (in_fence : bool) (lines : list str) : nat :=
  match lines with
  | [] => O
  | l :: rest =>
      if fence_shape l then count_heading_lines (negb in_fence) rest
      else if in_fence then count_heading_lines in_fence rest
      else ((if heading_shape l then 1 else 0) + count_heading_lines in_fence rest)%nat
  end.

(** No whitespace character is a decimal digit of the table. *)
Definition spaces_not_decimal (todecimal : char -> option Z) : bool :=
  forallb (fun c => negb (isdecimal todecimal c)) whitespace.

(** A line terminator: one line boundary, or a carriage return and a
    line feed. *)
Definition is_terminator (term : str) : bool :=
  match term with
  | [c] => is_linebreak c
  | [a; b] => N.eqb a CR && N.eqb b LF
  | _ => false
  end.

(** What follows a lone carriage return must not start with a line
    feed, or the two would count as one boundary. *)
Definition no_merge (term rest : str) : Prop :=
  term = [CR] -> match rest with c :: _ => c <> LF | [] => True end.

(** The text made of the lines, each followed by the terminator. *)
Definition join_lines (term : str) (lines : list str) : str :=
  concat (List.map (fun l => l ++ term) lines).

(** The number of [stack.pop()] calls over the whole loop. *)
Fixpoint pops (root : addr) (st : store * list addr) (hs : list addr) : nat :=
  match hs with
  | [] => O
  | h :: rest =>
      (length (snd st) - length (pop_while (fst st) (level_at (fst st) h) (snd st))
       + pops root (loop_body root st h) rest)%nat
  end.

(** The number of nodes on the longest path down a tree. *)
Fixpoint height (t : dict) : nat :=
  match t with
  | Dict _ _ _ cs => S (list_max (List.map height cs))
  end.

(** The nodes of a tree, parent first, children from left to right,
    each as its title, level and page. *)
Fixpoint flatten (t : dict) : list (str * Z * option Z) :=
  match t with
  | Dict x l p cs => (x, l, p) :: concat (List.map flatten cs)
  end.

Definition fields (n : HeadingNode) : str * Z * option Z := (title n, level n, page n).

Definition fields_at (s : store) (a : addr) : str * Z * option Z :=
  match s !! a with Some n => fields n | None => fields ROOT end.

(** Two lists of the same length, related entry by entry. *)
Fixpoint pairwise {A B} (R : A -> B -> Prop) (l : list A) (k : list B) : Prop :=
  match l, k with
  | [], [] => True
  | a :: l', b :: k' => R a b /\ pairwise R l' k'
  | _, _ => False
  end.

(** The tree [t] is the nesting of the headings [hs] under the object
    [x]: its node carries the title, level and page of [x], and its
    children are, in order, the nestings under the headings whose
    nearest preceding heading of strictly smaller level is [x] (the
    root, at the address after the store, if there is none). *)
Fixpoint nested (s : store) (hs : list addr) (t : dict) (x : addr) : Prop :=
  match t with
  | Dict ti l p cs =>
      (ti, l, p) = fields_at (s ++ [ROOT]) x
      /\ pairwise (fun c k => nested s hs c k) cs (kids s (length s) x [] hs)
  end.

(** [t] is what [to_dict] returns for the object at [a], given enough
    levels. *)
Definition treeof (s : store) (a : addr) (t : dict) : Prop :=
  exists d, to_dict d s a = Some t.

(** A set of objects that holds the children of each of its objects:
    the finished subtrees. *)
Definition closed_under (s : store) (C : addr -> Prop) : Prop :=
  forall x, C x -> exists n, s !! x = Some n /\ Forall C (children n).

(** The open path of the tree, from the top of the stack down to the
    root: each object had finished subtrees [cl] as its first children,
    then the next object up the path ([above]) if there is one.
    [suffix] lists the nodes of the subtree of [above] in traversal
    order, [total] those of the whole tree. *)
Fixpoint spine (s : store) (C : addr -> Prop) (above : list addr)
  (suffix : list (str * Z * option Z)) (path : list addr)
  (total : list (str * Z * option Z)) : Prop :=
  match path with
  | [] => total = suffix
  | a :: rest =>
      exists n cl cs,
        s !! a = Some n /\ children n = cl ++ above
        /\ Forall C cl /\ Forall2 (treeof s) cl cs
        /\ spine s C [a] (fields n :: concat (List.map flatten cs) ++ suffix) rest total
  end.

(** The state of the loop between two headings: the finished subtrees
    [C], the stack over the root as the open path, and the headings not
    yet read ([avoid]) outside both. *)
Definition good (s : store) (root : addr) (C : addr -> Prop) (stack : list addr)
  (avoid : addr -> Prop) (total : list (str * Z * option Z)) : Prop :=
  closed_under s C
  /\ (forall x, x ∈ stack ++ [root] -> ~ C x)
  /\ (forall x, avoid x -> ~ C x)
  /\ NoDup (stack ++ [root])
  /\ (forall x, avoid x -> x ∉ stack ++ [root])
  /\ spine s C [] [] (stack ++ [root]) total.

(** ** The output path of [main]

    [os.path.splitext] and [os.path.join] belong to the platform; the
    choice of the path takes them as parameters. A value of [argparse]
    is absent ([None]) or a text, and an empty text counts as absent
    in an [if]. *)

Definition DOT : char := 46%N.
Definition SLASH : char := 47%N.

Definition truthy (o : option str) : bool :=
  match o with Some (_ :: _) => true | _ => false end.

Definition text_of (o : option str) : str :=
  match o with Some t => t | None => [] end.

Definition out_path (splitext : str -> str * str) (join : list str -> str)
  (output basename : option str) (input_path : str) : str :=
  if truthy output then text_of output
  else if truthy basename then
    let out_dir := join [str_of "storage"; str_of "openrouter";
                         text_of basename ++ str_of "_vector_index"] in
    join [out_dir; str_of "section_tree_md_only.json"]
  else fst (splitext input_path) ++ str_of "_tree.json".

(** What the library promises of [splitext]: root and extension make
    up the path, and the extension is empty or begins with a period. *)
Definition splitext_contract (splitext : str -> str * str) (p : str) : Prop :=
  fst (splitext p) ++ snd (splitext p) = p
  /\ match snd (splitext p) with [] => True | c :: _ => c = DOT end.

(** [posixpath.splitext]: the extension starts at the last period
    after the last slash, unless only periods stand between that slash
    and it. The text is read from its end. *)
Fixpoint span_name (s : str) : str * str :=
  match s with
  | [] => ([], [])
  | c :: s' =>
      if N.eqb c DOT || N.eqb c SLASH then ([], s)
      else let (a, b) := span_name s' in (c :: a, b)
  end.

Fixpoint upto_slash (s : str) : str :=
  match s with
  | [] => []
  | c :: s' => if N.eqb c SLASH then [] else c :: upto_slash s'
  end.

Definition posix_splitext (p : str) : str * str :=
  let (ext_rev, rest) := span_name (rev p) in
  match rest with
  | c :: before_rev =>
      if N.eqb c DOT && existsb (fun x => negb (N.eqb x DOT)) (upto_slash before_rev)
      then (rev before_rev, DOT :: rev ext_rev)
      else (p, [])
  | [] => (p, [])
  end.

(** [posixpath.join] *)
Definition startswith_slash (b : str) : bool :=
  match b with c :: _ => N.eqb c SLASH | [] => false end.

Definition endswith_slash (path : str) : bool :=
  match rev path with d :: _ => N.eqb d SLASH | [] => false end.

Definition posix_join2 (path b : str) : str :=
  if startswith_slash b then b
  else if match path with [] => true | _ => false end || endswith_slash path
       then path ++ b
       else path ++ SLASH :: b.

Definition posix_join (parts : list str) : str :=
  match parts with
  | [] => []
  | a :: rest => fold_left posix_join2 rest a
  end.

(** * The embedding on the interpreter's own answers *)

Example splitlines_mixed_boundaries :
  splitlines (str_of "a" ++ [CR; LF] ++ str_of "b" ++ [LF; LF] ++ str_of "c" ++ [CR])
  = [str_of "a"; str_of "b"; []; str_of "c"].
Proof. reflexivity. Qed.

Example header_rx_six_markers :
  re_match header_rx (str_of "###### x y ")
  = Some [(2%nat, str_of "x y"); (1%nat, str_of "######")].
Proof. reflexivity. Qed.

Example header_rx_seven_markers : re_match header_rx (str_of "####### x") = None.
Proof. reflexivity. Qed.

Example code_block_rx_indented :
  re_match code_block_rx (str_of "  ```py") = Some [(1%nat, str_of "```")].
Proof. reflexivity. Qed.

Example page_rx_inner_spaces :
  re_match (page_rx ascii_decimal) (str_of "<!--PAGE: 12 -->") = Some [(1%nat, str_of "12")].
Proof. reflexivity. Qed.

Example int_over_the_limit : py_int ascii_decimal 4300 (repeat 49%N 4301) = None.
Proof. vm_compute. reflexivity. Qed.

Example level_jump_tree :
  build_tree_markdown_levels 7 jump_example [0; 1]%nat
  = Some (Dict (str_of "ROOT") 0 None
            [Dict (str_of "A") 1 None [Dict (str_of "B") 3 None []]]).
Proof. reflexivity. Qed.

Example empty_text_tree :
  section_tree ascii_decimal 4300 7 [] = Some (Dict (str_of "ROOT") 0 None []).
Proof. reflexivity. Qed.

(** The same object given twice is shared, not copied. *)
Example shared_object_tree :
  build_tree_markdown_levels 7 [heading (str_of "A") 1 None; heading (str_of "B") 2 None]
    [0; 1; 0]%nat
  = Some (Dict (str_of "ROOT") 0 None
            [Dict (str_of "A") 1 None [Dict (str_of "B") 2 None []];
             Dict (str_of "A") 1 None [Dict (str_of "B") 2 None []]]).
Proof. reflexivity. Qed.

(** * The tree builder: proofs *)

Section Builder.

Implicit Types (s : store) (stack hs pre : list addr) (a h x root : addr).

Lemma level_at_append_child s p h a :
  level_at (append_child s p h) a = level_at s a.
Proof.
  unfold level_at, append_child.
  destruct (decide (p = a)) as [->|Hne].
  - rewrite list_lookup_alter_eq. destruct (s !! a); reflexivity.
  - rewrite list_lookup_alter_ne by done. reflexivity.
Qed.

Lemma children_at_append_child s p h x :
  (x < length s)%nat ->
  children_at (append_child s p h) x
  = children_at s x ++ (if Nat.eqb p x then [h] else []).
Proof.
  intros Hx. unfold children_at, append_child.
  destruct (Nat.eqb_spec p x) as [->|Hne].
  - rewrite list_lookup_alter_eq.
    destruct (lookup_lt_is_Some_2 s x Hx) as [n Hn]. rewrite Hn. reflexivity.
  - rewrite list_lookup_alter_ne by done.
    destruct (s !! x); simpl; rewrite ?app_nil_r; reflexivity.
Qed.

Lemma level_at_root s a : level_at (s ++ [ROOT]) a = level_at s a.
Proof.
  unfold level_at.
  destruct (Nat.lt_trichotomy a (length s)) as [Hlt|[->|Hgt]].
  - rewrite lookup_app_l by done. reflexivity.
  - rewrite list_lookup_middle by done.
    rewrite (proj2 (lookup_ge_None s (length s))) by lia. reflexivity.
  - rewrite (proj2 (lookup_ge_None (s ++ [ROOT]) a))
      by (rewrite length_app; simpl; lia).
    rewrite (proj2 (lookup_ge_None s a)) by lia. reflexivity.
Qed.

Lemma pop_while_ext s s' lvl stack :
  (forall a, level_at s a = level_at s' a) ->
  pop_while s lvl stack = pop_while s' lvl stack.
Proof.
  intros E. induction stack as [|top rest IH]; simpl; [reflexivity|].
  rewrite E, IH. reflexivity.
Qed.

Lemma nearest_smaller_ext s s' lvl pre :
  (forall a, level_at s a = level_at s' a) ->
  nearest_smaller s lvl pre = nearest_smaller s' lvl pre.
Proof.
  intros E. induction pre as [|a rest IH]; simpl; [reflexivity|].
  rewrite E, IH. reflexivity.
Qed.

(** After the pops the top of the stack is the first entry with a
    strictly smaller level. *)
Lemma pop_while_head s lvl stack :
  head (pop_while s lvl stack) = nearest_smaller s lvl stack.
Proof.
  induction stack as [|top rest IH]; simpl; [reflexivity|].
  destruct (Z.leb_spec lvl (level_at s top)) as [Hle|Hgt].
  - rewrite IH. destruct (Z.ltb_spec (level_at s top) lvl); [lia|reflexivity].
  - simpl. destruct (Z.ltb_spec (level_at s top) lvl); [reflexivity|lia].
Qed.

(** The popped entries are invisible to any later search. *)
Lemma nearest_smaller_pop s lvl lvl' stack :
  lvl' <= lvl ->
  nearest_smaller s lvl' (pop_while s lvl stack) = nearest_smaller s lvl' stack.
Proof.
  intros Hle. induction stack as [|top rest IH]; simpl; [reflexivity|].
  destruct (Z.leb_spec lvl (level_at s top)) as [H1|H1].
  - rewrite IH. destruct (Z.ltb_spec (level_at s top) lvl'); [lia|reflexivity].
  - reflexivity.
Qed.

Lemma nearest_smaller_lt s lvl pre p :
  nearest_smaller s lvl pre = Some p -> p ∈ pre /\ level_at s p < lvl.
Proof.
  induction pre as [|a rest IH]; simpl; [discriminate|].
  destruct (Z.ltb_spec (level_at s a) lvl) as [Hlt|Hge].
  - intros [= <-]. split; [left|assumption].
  - intros H. destruct (IH H). split; [right|]; assumption.
Qed.

(** The loop, from any state whose stack sees the same nearest
    smaller headings as the whole history [pre]. *)
Lemma run_loop_spec s0 root hs : forall pre s stack,
  (forall a, level_at s a = level_at s0 a) ->
  (forall lvl, nearest_smaller s0 lvl stack = nearest_smaller s0 lvl pre) ->
  (forall a, level_at (fst (run_loop root (s, stack) hs)) a = level_at s0 a)
  /\ length (fst (run_loop root (s, stack) hs)) = length s
  /\ (forall x, (x < length s)%nat ->
        children_at (fst (run_loop root (s, stack) hs)) x
        = children_at s x ++ kids s0 root x pre hs)
  /\ (forall lvl, nearest_smaller s0 lvl (snd (run_loop root (s, stack) hs))
                  = nearest_smaller s0 lvl (rev hs ++ pre)).
Proof.
  induction hs as [|h rest IH]; intros pre s stack Hlev Hstack.
  - simpl. repeat split; try done. intros x _. rewrite app_nil_r. reflexivity.
  - set (stack1 := pop_while s (level_at s h) stack).
    set (parent := match stack1 with top :: _ => top | [] => root end).
    change (run_loop root (s, stack) (h :: rest))
      with (run_loop root (append_child s parent h, h :: stack1) rest).
    assert (Hparent : parent = parent_of s0 root pre h).
    { unfold parent, parent_of, stack1.
      rewrite <- Hstack, <- (nearest_smaller_ext s s0) by exact Hlev.
      rewrite <- Hlev, <- pop_while_head.
      destruct (pop_while s (level_at s h) stack); reflexivity. }
    destruct (IH (h :: pre) (append_child s parent h) (h :: stack1))
      as (I1 & I2 & I3 & I4).
    + intros a. rewrite level_at_append_child. apply Hlev.
    + intros lvl. simpl. rewrite <- (Hlev h).
      destruct (Z.ltb_spec (level_at s h) lvl) as [Hlt|Hge]; [reflexivity|].
      unfold stack1. rewrite (pop_while_ext s s0) by exact Hlev.
      rewrite nearest_smaller_pop by lia. apply Hstack.
    + repeat split.
      * exact I1.
      * rewrite I2. unfold append_child. apply length_alter.
      * intros x Hx. rewrite I3 by (unfold append_child; rewrite length_alter; exact Hx).
        rewrite children_at_append_child by exact Hx.
        rewrite Hparent. simpl. rewrite <- app_assoc. reflexivity.
      * intros lvl. rewrite I4. simpl. rewrite <- app_assoc. reflexivity.
Qed.

Lemma kids_elem s root x pre hs c :
  c ∈ kids s root x pre hs ->
  c ∈ hs /\ exists before, parent_of s root before c = x.
Proof.
  revert pre. induction hs as [|h rest IH]; intros pre; simpl.
  - intros H. inversion H.
  - rewrite elem_of_app. intros [H|H].
    + destruct (Nat.eqb_spec (parent_of s root pre h) x) as [E|E].
      * apply list_elem_of_singleton in H. subst c. split; [left|eauto].
      * inversion H.
    + destruct (IH _ H) as [Hin Hp]. split; [right; exact Hin|exact Hp].
Qed.

Lemma kids_app s root x pre l1 l2 :
  kids s root x pre (l1 ++ l2)
  = kids s root x pre l1 ++ kids s root x (rev l1 ++ pre) l2.
Proof.
  revert pre. induction l1 as [|h rest IH]; intros pre; simpl.
  - reflexivity.
  - rewrite IH, <- !app_assoc. reflexivity.
Qed.

(** ** Sortedness of the stack *)

Lemma chain_tail R (z : Z) (zs : list Z) : chain R (z :: zs) -> chain R zs.
Proof. destruct zs; simpl; tauto. Qed.

Lemma chain_snoc R (zs : list Z) (z : Z) :
  chain R (zs ++ [z])
  <-> chain R zs /\ match last zs with Some b => R b z | None => True end.
Proof.
  induction zs as [|b [|c l'] IH].
  - simpl. tauto.
  - simpl. tauto.
  - change (chain R ((b :: c :: l') ++ [z]))
      with (R b c /\ chain R ((c :: l') ++ [z])).
    change (chain R (b :: c :: l')) with (R b c /\ chain R (c :: l')).
    change (last (b :: c :: l')) with (last (c :: l')).
    tauto.
Qed.

Lemma chain_rev R (zs : list Z) :
  chain R (rev zs) <-> chain (fun u v => R v u) zs.
Proof.
  induction zs as [|z l IH]; [simpl; tauto|].
  simpl rev. rewrite chain_snoc, IH.
  destruct l as [|b l']; [simpl; tauto|].
  replace (last (rev (b :: l'))) with (Some b).
  - simpl. tauto.
  - simpl. rewrite last_snoc. reflexivity.
Qed.

Lemma chain_pop_while s0 s lvl stack :
  chain (fun u v => v < u) (List.map (level_at s0) stack) ->
  chain (fun u v => v < u) (List.map (level_at s0) (pop_while s lvl stack)).
Proof.
  induction stack as [|top rest IH]; simpl pop_while; [auto|].
  intros H. destruct (lvl <=? level_at s top); [|exact H].
  apply IH. exact (chain_tail _ _ _ H).
Qed.

Lemma run_loop_sorted s0 root hs : forall s stack,
  (forall a, level_at s a = level_at s0 a) ->
  chain (fun u v => v < u) (List.map (level_at s0) stack) ->
  chain (fun u v => v < u) (List.map (level_at s0) (snd (run_loop root (s, stack) hs))).
Proof.
  induction hs as [|h rest IH]; intros s stack Hlev Hsorted; [exact Hsorted|].
  change (run_loop root (s, stack) (h :: rest))
    with (run_loop root (append_child s
            (match pop_while s (level_at s h) stack with
             | top :: _ => top | [] => root end) h,
            h :: pop_while s (level_at s h) stack) rest).
  apply IH.
  - intros a. rewrite level_at_append_child. apply Hlev.
  - pose proof (chain_pop_while s0 s (level_at s h) stack Hsorted) as Hs.
    pose proof (pop_while_head s (level_at s h) stack) as Hh.
    destruct (pop_while s (level_at s h) stack) as [|top rest']; [exact I|].
    simpl in Hh. symmetry in Hh. apply nearest_smaller_lt in Hh as [_ Hlt].
    change (level_at s0 top < level_at s0 h
            /\ chain (fun u v => v < u) (List.map (level_at s0) (top :: rest'))).
    rewrite <- !Hlev. split; [lia|exact Hs].
Qed.

(** ** Termination and shape of [to_dict] *)

Lemma mapM_to_dict d s (P : addr -> dict -> Prop) cl :
  Forall (fun c => exists t, to_dict d s c = Some t /\ P c t) cl ->
  exists ts, mapM (to_dict d s) cl = Some ts /\ Forall2 P cl ts.
Proof.
  induction 1 as [|c cl (t & Ht & HP) _ (ts & Hts & HF)].
  - exists []. split; [reflexivity|constructor].
  - exists (t :: ts). split; [|constructor; assumption].
    simpl. rewrite Ht. simpl. rewrite Hts. reflexivity.
Qed.

(** On a part [G] of the store that is closed under [children], with
    levels between 0 and 6 that grow along every child edge,
    [to_dict] returns within seven levels. *)
Lemma to_dict_total s (G : addr -> Prop) :
  (forall x, G x -> exists n, s !! x = Some n /\ 0 <= level n <= 6
      /\ Forall (fun c => G c /\ level n < level_at s c) (children n)) ->
  forall depth x, G x -> 6 - level_at s x < Z.of_nat depth ->
  exists t, to_dict depth s x = Some t
            /\ (d_level t = level_at s x /\ levels_increase t = true).
Proof.
  intros HG. induction depth as [|d IH]; intros x Gx Hd.
  - destruct (HG x Gx) as (n & Hn & Hl & _).
    unfold level_at in Hd. rewrite Hn in Hd. lia.
  - destruct (HG x Gx) as (n & Hn & Hl & Hc).
    assert (Hlx : level_at s x = level n) by (unfold level_at; rewrite Hn; reflexivity).
    destruct (mapM_to_dict d s
                (fun c t => d_level t = level_at s c /\ levels_increase t = true)
                (children n)) as (ts & Hts & HF).
    { eapply Forall_impl; [exact Hc|]. intros c [Gc Hlt]. apply IH; [exact Gc|lia]. }
    exists (Dict (title n) (level n) (page n) ts).
    simpl. rewrite Hn, Hts. repeat split; [symmetry; exact Hlx|].
    clear Hts. induction HF as [|c t cl tl [E1 E2] HF IHF]; [reflexivity|].
    apply Forall_cons in Hc as [[_ Hlt] Hc]. simpl.
    rewrite E1, E2, (IHF Hc). destruct (Z.ltb_spec (level n) (level_at s c)); [reflexivity|lia].
Qed.

Lemma flat_lookup s hs x :
  flat s hs -> x ∈ hs -> exists n, s !! x = Some n /\ children n = [].
Proof.
  intros HF Hx. unfold flat in HF. rewrite Forall_forall in HF. apply HF. exact Hx.
Qed.

Lemma parent_of_cases s root pre h :
  (parent_of s root pre h = root \/ parent_of s root pre h ∈ pre)
  /\ (level_at s (parent_of s root pre h) < level_at s h
      \/ parent_of s root pre h = root).
Proof.
  unfold parent_of.
  destruct (nearest_smaller s (level_at s h) pre) as [p|] eqn:E.
  - apply nearest_smaller_lt in E as [Hin Hlt]. split; [right|left]; assumption.
  - split; [left|right]; reflexivity.
Qed.

End Builder.

(** ** The claims about the builder *)

(** C1, as the code has it: for the heading sequence with levels
    [1,2,3,2,1] and titles [A,B,C,D,E], [build] returns the tree with
    root.children = [A, E], A.children = [B, D] and B.children = [C]:
    D, of level 2, pops B and becomes its sibling under A. *)
Theorem nesting_example_tree (pa pb pc pd pe : option Z) (d : nat) :
  build_tree_markdown_levels (4 + d) (nesting_example pa pb pc pd pe) (seq 0 5)
  = Some (Dict (str_of "ROOT") 0 None
            [Dict (str_of "A") 1 pa
               [Dict (str_of "B") 2 pb [Dict (str_of "C") 3 pc []];
                Dict (str_of "D") 2 pd []];
             Dict (str_of "E") 1 pe []]).
Proof. reflexivity. Qed.

(** C1 as stated fails: the tree of the example has no shape with
    A.children = [B] and B.children = [C, D]. *)
Lemma nesting_example_claimed_shape_fails :
  ~ exists t a e b c d,
      build_tree_markdown_levels 7 (nesting_example None None None None None) (seq 0 5)
      = Some t
      /\ d_children t = [a; e] /\ d_children a = [b] /\ d_children b = [c; d].
Proof.
  intros (t & a & e & b & c & d & Ht & Hr & Ha & Hb).
  vm_compute in Ht. injection Ht as <-. simpl in Hr. injection Hr as <- <-. simpl in Ha. discriminate Ha.
Qed.

(** C2 as stated fails: after the headings of levels 1 and 3 the stack
    reads, bottom to top, 1 then 3, which is not decreasing. *)
Lemma stack_not_decreasing_bottom_to_top :
  stack_levels_bottom_up (build_store jump_example [0; 1]%nat) = [1; 3]
  /\ ~ chain (fun u v => u >= v)
         (stack_levels_bottom_up (build_store jump_example [0; 1]%nat)).
Proof.
  split; [reflexivity|]. vm_compute. intros [H _]. apply H. reflexivity.
Qed.

(** C2, as the code has it: at every step of the builder's loop (after
    any number [k] of headings), the ancestor stack, read from bottom to
    top, is strictly increasing by level; it decreases from top to
    bottom. *)
Theorem stack_increasing_bottom_to_top (s : store) (hs : list addr) (k : nat) :
  chain Z.lt (stack_levels_bottom_up (build_store s (firstn k hs))).
Proof.
  unfold stack_levels_bottom_up, build_store.
  rewrite map_rev. apply chain_rev.
  destruct (run_loop_spec s (length s) (firstn k hs) [] (s ++ [ROOT]) [])
    as (Hlev & _); [apply level_at_root|reflexivity|].
  rewrite (map_ext _ _ Hlev).
  apply run_loop_sorted; [apply level_at_root|exact I].
Qed.

Lemma lookup_append_child_ne (s : store) (p h x : addr) :
  x <> p -> append_child s p h !! x = s !! x.
Proof. intros H. unfold append_child. apply list_lookup_alter_ne. congruence. Qed.

Lemma lookup_append_child_eq (s : store) (p h : addr) (n : HeadingNode) :
  s !! p = Some n ->
  append_child s p h !! p
  = Some (mkHeadingNode (title n) (level n) (page n) (children n ++ [h])).
Proof. intros H. unfold append_child. rewrite list_lookup_alter_eq, H. reflexivity. Qed.

Lemma fields_at_append_child (s : store) (p h a : addr) :
  fields_at (append_child s p h) a = fields_at s a.
Proof.
  unfold fields_at. destruct (decide (a = p)) as [->|Hne].
  - destruct (s !! p) as [n|] eqn:E.
    + rewrite (lookup_append_child_eq s p h n E). reflexivity.
    + unfold append_child. rewrite list_lookup_alter_eq, E. reflexivity.
  - rewrite lookup_append_child_ne by exact Hne. reflexivity.
Qed.

Lemma run_loop_fields (root : addr) (hs : list addr) (a : addr) : forall st,
  fields_at (fst (run_loop root st hs)) a = fields_at (fst st) a.
Proof.
  induction hs as [|h rest IH]; intros [s stack]; [reflexivity|].
  change (run_loop root (s, stack) (h :: rest))
    with (run_loop root (loop_body root (s, stack) h) rest).
  rewrite IH. simpl. apply fields_at_append_child.
Qed.

(** The loop changes no title, level or page. *)
Lemma build_store_fields (s : store) (hs : list addr) (a : addr) :
  fields_at (fst (build_store s hs)) a = fields_at (s ++ [ROOT]) a.
Proof. exact (run_loop_fields (length s) hs a (s ++ [ROOT], [])). Qed.

Lemma pairwise_Forall2 {A B} (R : A -> B -> Prop) (l : list A) (k : list B) :
  Forall2 R l k -> pairwise R l k.
Proof. induction 1; simpl; auto. Qed.

Lemma flat_valid (s : store) (hs : list addr) (x : addr) :
  flat s hs -> x = length s \/ x ∈ hs -> (x < length (s ++ [ROOT]))%nat.
Proof.
  intros Hflat [->|Hx]; rewrite length_app; simpl; [lia|].
  destruct (flat_lookup s hs x Hflat Hx) as (n & Hn & _).
  apply lookup_lt_Some in Hn. lia.
Qed.

(** After the loop the children of the root and of each heading are
    the headings that chose it as their parent, in order. *)
Lemma flat_children (s : store) (hs : list addr) (x : addr) :
  flat s hs -> x = length s \/ x ∈ hs ->
  children_at (fst (build_store s hs)) x = kids s (length s) x [] hs.
Proof.
  intros Hflat Hx.
  destruct (run_loop_spec s (length s) hs [] (s ++ [ROOT]) [])
    as (_ & _ & Hkids & _); [apply level_at_root|reflexivity|].
  change (run_loop (length s) (s ++ [ROOT], []) hs) with (build_store s hs) in *.
  rewrite Hkids by (apply (flat_valid s hs); assumption).
  replace (children_at (s ++ [ROOT]) x) with (@nil nat); [reflexivity|].
  unfold children_at. destruct Hx as [->|Hx].
  - rewrite list_lookup_middle by reflexivity. reflexivity.
  - destruct (flat_lookup s hs x Hflat Hx) as (n & Hn & Hc).
    rewrite lookup_app_l by (apply lookup_lt_Some in Hn; exact Hn).
    rewrite Hn, Hc. reflexivity.
Qed.

(** Whatever [to_dict] returns after the loop is the nesting of the
    headings: the tree handed back has the children lists of the
    store. *)
Lemma to_dict_nested (s : store) (hs : list addr) :
  flat s hs ->
  forall d x t, x = length s \/ x ∈ hs ->
    to_dict d (fst (build_store s hs)) x = Some t -> nested s hs t x.
Proof.
  intros Hflat. induction d as [|d IH]; intros x t Hx H; [discriminate|].
  simpl in H. destruct (fst (build_store s hs) !! x) as [n|] eqn:Hn; [|discriminate].
  destruct (mapM _ (children n)) as [cs|] eqn:Hcs; [|discriminate].
  injection H as <-. simpl. split.
  - change (title n, level n, page n) with (fields n).
    rewrite <- (build_store_fields s hs x).
    unfold fields_at. rewrite Hn. reflexivity.
  - assert (Hch : children n = kids s (length s) x [] hs).
    { rewrite <- flat_children by assumption. unfold children_at. rewrite Hn. reflexivity. }
    rewrite <- Hch. apply pairwise_Forall2. apply mapM_Some_1 in Hcs.
    assert (Hin : forall c, c ∈ children n -> c = length s \/ c ∈ hs).
    { intros c Hc. right. rewrite Hch in Hc. apply kids_elem in Hc. tauto. }
    clear Hch Hn. induction Hcs as [|c t cl tl Hc _ IHc]; constructor.
    + apply IH; [apply Hin; left|exact Hc].
    + apply IHc. intros c' Hc'. apply Hin. right. exact Hc'.
Qed.

(** On a flat sequence with levels from 1 to 6, [to_dict] returns
    within seven levels, and levels grow along the tree. *)
Lemma build_total (s : store) (hs : list addr) (depth : nat) :
  flat s hs ->
  Forall (fun h => 1 <= level_at s h <= 6) hs ->
  (7 <= depth)%nat ->
  exists t, build_tree_markdown_levels depth s hs = Some t
            /\ levels_increase t = true.
Proof.
  intros Hflat Hlevels Hdepth.
  destruct (run_loop_spec s (length s) hs [] (s ++ [ROOT]) [])
    as (Hlev & Hlen & _); [apply level_at_root|reflexivity|].
  change (run_loop (length s) (s ++ [ROOT], []) hs) with (build_store s hs) in *.
  assert (Hroot : level_at s (length s) = 0).
  { unfold level_at. rewrite (proj2 (lookup_ge_None s (length s))) by lia. reflexivity. }
  rewrite Forall_forall in Hlevels.
  unfold build_tree_markdown_levels.
  destruct (to_dict_total (fst (build_store s hs)) (fun x => x = length s \/ x ∈ hs))
    with (depth := depth) (x := length s) as (t & Ht & _ & Hinc).
  - intros x Gx.
    destruct (lookup_lt_is_Some_2 (fst (build_store s hs)) x) as [n Hn].
    { rewrite Hlen. apply (flat_valid s hs); assumption. }
    assert (Hln : level n = level_at s x).
    { rewrite <- Hlev. unfold level_at. rewrite Hn. reflexivity. }
    assert (Hcn : children n = kids s (length s) x [] hs).
    { rewrite <- flat_children by assumption. unfold children_at. rewrite Hn. reflexivity. }
    exists n. split; [exact Hn|]. split.
    + rewrite Hln. destruct Gx as [->|Hx]; [lia|]. specialize (Hlevels x Hx). lia.
    + rewrite Hcn. apply Forall_forall. intros c Hc.
      apply kids_elem in Hc as [Hc (before & Hp)].
      split; [right; exact Hc|].
      rewrite Hln, Hlev. specialize (Hlevels c Hc).
      destruct (parent_of_cases s (length s) before c) as [_ [Hlt|Hr]].
      * rewrite Hp in Hlt. exact Hlt.
      * rewrite Hp in Hr. rewrite Hr. lia.
  - left. reflexivity.
  - rewrite Hlev. lia.
  - exists t. split; assumption.
Qed.

Lemma mapM_pointwise {A B} (f g : A -> option B) (l : list A) :
  (forall x, f x = g x) -> mapM f l = mapM g l.
Proof.
  intros H. induction l as [|x l IH]; [reflexivity|].
  simpl. rewrite H, IH. reflexivity.
Qed.

(** Frames and levels: where the comprehension has a frame of its own a
    level of the tree takes two frames, elsewhere one. *)
Lemma to_dict_frames_levels (own_frame : bool) (s : store) (frames : nat) (a : addr) :
  to_dict_frames own_frame frames s a = to_dict (levels_allowed own_frame frames) s a.
Proof.
  destruct own_frame.
  - revert a.
    enough (H : forall a,
              to_dict_frames true frames s a = to_dict (Nat.div2 frames) s a
              /\ to_dict_frames true (S frames) s a = to_dict (Nat.div2 (S frames)) s a)
      by (intros a; apply H).
    induction frames as [|f IH]; intros a.
    + split; [reflexivity|]. simpl. destruct (s !! a); reflexivity.
    + split; [apply IH|].
      change (Nat.div2 (S (S f))) with (S (Nat.div2 f)).
      simpl. destruct (s !! a) as [n|]; [|reflexivity].
      rewrite (mapM_pointwise _ (to_dict (Nat.div2 f) s)); [reflexivity|].
      intros x. apply IH.
  - revert a. induction frames as [|f IH]; intros a; [reflexivity|].
    simpl. destruct (s !! a) as [n|]; [|reflexivity].
    rewrite (mapM_pointwise _ (to_dict f s)); [reflexivity|]. exact IH.
Qed.

Lemma levels_allowed_le (own_frame : bool) (k frames : nat) :
  (frame_cost own_frame * k <= frames)%nat <-> (k <= levels_allowed own_frame frames)%nat.
Proof.
  destruct own_frame; simpl; [|lia].
  destruct (Nat.Even_or_Odd frames) as [[m ->]|[m ->]].
  - rewrite Nat.div2_double. lia.
  - replace (2 * m + 1)%nat with (S (2 * m)) by lia. rewrite Nat.div2_succ_double. lia.
Qed.

(** C4: for every flat heading sequence given to [build], each heading
    is appended to the children of the nearest preceding heading with a
    strictly smaller level, or of the root if there is none, and of no
    other node, whatever the jumps between levels; every tree the
    function returns is that nesting: each node has the title, level and
    page of its object, and its children are, in order, the trees of the
    headings whose nearest preceding heading of strictly smaller level
    it is; and for the levels of heading records, 1 to 6, the function
    returns within seven levels of [to_dict] (7 frames where
    comprehensions are inlined, 14 where they have a frame of their
    own), and in the tree returned every node's level is strictly
    greater than its parent's. *)
Theorem build_nests_under_nearest_smaller (s : store) (hs : list addr) :
  flat s hs ->
  (forall pre h post, hs = pre ++ h :: post ->
     h ∈ children_at (fst (build_store s hs)) (parent_of s (length s) (rev pre) h))
  /\ (forall x, x = length s \/ x ∈ hs ->
        children_at (fst (build_store s hs)) x = kids s (length s) x [] hs)
  /\ (forall own_frame frames t,
        build_tree_frames own_frame frames s hs = Some t ->
        nested s hs t (length s))
  /\ (Forall (fun h => 1 <= level_at s h <= 6) hs ->
      forall own_frame frames, (frame_cost own_frame * 7 <= frames)%nat ->
      exists t, build_tree_frames own_frame frames s hs = Some t
                /\ nested s hs t (length s)
                /\ levels_increase t = true).
Proof.
  intros Hflat.
  assert (Hnested : forall own_frame frames t,
             build_tree_frames own_frame frames s hs = Some t ->
             nested s hs t (length s)).
  { intros own_frame frames t Ht. unfold build_tree_frames in Ht.
    rewrite to_dict_frames_levels in Ht.
    apply (to_dict_nested s hs Hflat _ _ _ (or_introl eq_refl) Ht). }
  split; [|split; [|split]].
  - intros pre h post E.
    destruct (parent_of_cases s (length s) (rev pre) h) as [Hp _].
    rewrite flat_children; [|exact Hflat|].
    + rewrite E, kids_app, app_nil_r. apply elem_of_app. right. simpl.
      rewrite Nat.eqb_refl. left.
    + destruct Hp as [Hp|Hp]; [left; exact Hp|right].
      rewrite E. apply elem_of_app. left.
      apply list_elem_of_In, in_rev, list_elem_of_In. exact Hp.
  - intros x Hx. apply flat_children; assumption.
  - exact Hnested.
  - intros Hlevels own_frame frames Hframes.
    apply levels_allowed_le in Hframes.
    destruct (build_total s hs _ Hflat Hlevels Hframes) as (t & Ht & Hinc).
    unfold build_tree_markdown_levels in Ht.
    rewrite <- to_dict_frames_levels in Ht.
    exists t. split; [exact Ht|]. split; [|exact Hinc].
    apply (Hnested own_frame frames). exact Ht.
Qed.

(** The level jump: level 1 directly followed by level 3 gives
    root.children = [A] and A.children = [B], and the tree returned is
    the root over A over B; where comprehensions have a frame of their
    own it is returned with 14 frames. *)
Lemma build_nests_under_nearest_smaller_witness :
  children_at (fst (build_store jump_example [0; 1]%nat)) 2 = [0%nat]
  /\ children_at (fst (build_store jump_example [0; 1]%nat)) 0 = [1%nat]
  /\ exists t, build_tree_frames true 14 jump_example [0; 1]%nat = Some t
               /\ nested jump_example [0; 1]%nat t 2
               /\ levels_increase t = true.
Proof.
  assert (Hflat : flat jump_example [0; 1]%nat).
  { repeat constructor; eexists; (split; [reflexivity|reflexivity]). }
  destruct (build_nests_under_nearest_smaller jump_example [0; 1]%nat Hflat)
    as (_ & Hkids & _ & Htree).
  split; [|split].
  - apply (Hkids 2%nat). left. reflexivity.
  - apply (Hkids 0%nat). right. left.
  - apply (Htree ltac:(repeat constructor; vm_compute; discriminate) true 14%nat).
    simpl. lia.
Defined.

(** A bare root is not the nesting of the level jump: the nesting
    fixes the children of every node of the tree. *)
Lemma bare_root_not_nested :
  ~ nested jump_example [0; 1]%nat (Dict (str_of "ROOT") 0 None []) 2.
Proof. intros [_ H]. exact H. Qed.

(** * The heading extractor: proofs *)

(** ** Backtracking over the candidate counts *)

Section Matching.

Context {A B : Type} (f : A -> option B).

Lemma first_some_none xs :
  (forall x, In x xs -> f x = None) -> first_some f xs = None.
Proof.
  induction xs as [|x xs IH]; intros H; simpl; [reflexivity|].
  rewrite (H x) by (left; reflexivity). apply IH. intros y Hy. apply H. right. exact Hy.
Qed.

Lemma first_some_inv xs r :
  first_some f xs = Some r -> exists x, In x xs /\ f x = Some r.
Proof.
  induction xs as [|x xs IH]; simpl; [discriminate|].
  destruct (f x) as [r'|] eqn:E.
  - intros [= <-]. exists x. split; [left; reflexivity|exact E].
  - intros H. destruct (IH H) as (y & Hy & Hf). exists y. split; [right|]; assumption.
Qed.

Lemma first_some_is_Some xs x :
  In x xs -> is_Some (f x) -> is_Some (first_some f xs).
Proof.
  induction xs as [|y xs IH]; simpl; [intros []|].
  intros [->|Hin] Hx.
  - destruct Hx as [r Hr]. rewrite Hr. eauto.
  - destruct (f y); [eauto|]. apply IH; assumption.
Qed.

End Matching.

Section Runs.

Variable cls : char -> bool.

Lemma run_le_length (s : str) : (run cls s <= length s)%nat.
Proof. induction s as [|c s IH]; simpl; [lia|]. destruct (cls c); simpl; lia. Qed.

Lemma run_app_all (l s : str) :
  forallb cls l = true -> run cls (l ++ s) = (length l + run cls s)%nat.
Proof.
  induction l as [|c l IH]; simpl; [reflexivity|].
  intros H. apply andb_prop in H as [Hc Hl]. rewrite Hc, IH by exact Hl. reflexivity.
Qed.

Lemma run_firstn (s : str) (j : nat) :
  (j <= run cls s)%nat -> forallb cls (firstn j s) = true.
Proof.
  revert j. induction s as [|c s IH]; intros [|j]; simpl; try reflexivity; try lia.
  destruct (cls c) eqn:E; [|lia]. intros H. simpl. apply IH. lia.
Qed.

Lemma run_inside (s : str) (j : nat) :
  (j < run cls s)%nat -> exists c rest, skipn j s = c :: rest /\ cls c = true.
Proof.
  revert j. induction s as [|c s IH]; intros j; simpl; [lia|].
  destruct (cls c) eqn:E; [|lia]. destruct j as [|j]; intros H.
  - exists c, s. split; [reflexivity|exact E].
  - simpl. apply IH. lia.
Qed.

Lemma run_zero (c : char) (s : str) : cls c = false -> run cls (c :: s) = O.
Proof. intros H. simpl. rewrite H. reflexivity. Qed.

Lemma run_of_inside (s : str) (j : nat) (c : char) (rest : str) :
  (j <= run cls s)%nat -> skipn j s = c :: rest -> cls c = false -> j = run cls s.
Proof.
  intros Hj Hs Hc. destruct (Nat.eq_dec j (run cls s)) as [E|E]; [exact E|].
  destruct (run_inside s j) as (c' & rest' & Hs' & Hc'); [lia|]. congruence.
Qed.

End Runs.

Lemma counts_In lazy lo hi cls s j :
  In j (counts lazy lo hi cls s) <-> (lo <= j <= capped hi (run cls s))%nat.
Proof.
  unfold counts. destruct lazy; rewrite <- ?in_rev, in_seq; lia.
Qed.

Section Repetition.

Variables (lazy : bool) (lo : nat) (hi : option nat) (cls : char -> bool).
Variables (k : cont) (pos : nat) (s : str) (g : groups).

Lemma rep_none :
  (capped hi (run cls s) < lo)%nat -> rx (Rep lazy lo hi cls) k pos s g = None.
Proof.
  intros H. simpl. apply first_some_none. intros j Hj. apply counts_In in Hj. lia.
Qed.

Lemma rep_inv r :
  rx (Rep lazy lo hi cls) k pos s g = Some r ->
  exists j, (lo <= j <= capped hi (run cls s))%nat
            /\ k (pos + j)%nat (skipn j s) g = Some r.
Proof.
  simpl. intros H. apply first_some_inv in H as (j & Hj & Hk).
  exists j. split; [apply counts_In in Hj; exact Hj|exact Hk].
Qed.

Lemma rep_is_Some j :
  (lo <= j <= capped hi (run cls s))%nat ->
  is_Some (k (pos + j)%nat (skipn j s) g) ->
  is_Some (rx (Rep lazy lo hi cls) k pos s g).
Proof.
  intros Hj Hk. simpl.
  apply (first_some_is_Some _ _ j); [apply counts_In; exact Hj|exact Hk].
Qed.

Lemma rep_all_none :
  (forall j, (lo <= j <= capped hi (run cls s))%nat ->
             k (pos + j)%nat (skipn j s) g = None) ->
  rx (Rep lazy lo hi cls) k pos s g = None.
Proof.
  intros H. simpl. apply first_some_none. intros j Hj.
  apply counts_In in Hj. apply H. exact Hj.
Qed.

End Repetition.

(** ** [strip] *)

Lemma forallb_rev {A} (p : A -> bool) (l : list A) : forallb p (rev l) = forallb p l.
Proof.
  induction l as [|a l IH]; simpl; [reflexivity|].
  rewrite forallb_app, IH. simpl. rewrite andb_true_r. apply andb_comm.
Qed.

Lemma lstrip_app (x z : str) :
  lstrip (x ++ z) = match lstrip x with [] => lstrip z | _ => lstrip x ++ z end.
Proof.
  induction x as [|c x IH]; simpl; [destruct (lstrip z); reflexivity|].
  destruct (isspace c); [exact IH|reflexivity].
Qed.

Lemma lstrip_all_space (x : str) : forallb isspace x = true -> lstrip x = [].
Proof.
  induction x as [|c x IH]; simpl; [reflexivity|].
  intros H. apply andb_prop in H as [-> H]. apply IH. exact H.
Qed.

Lemma lstrip_run (x : str) : lstrip x = skipn (run isspace x) x.
Proof.
  induction x as [|c x IH]; simpl; [reflexivity|].
  destruct (isspace c); [exact IH|reflexivity].
Qed.

Lemma lstrip_head (x : str) (c : char) (rest : str) :
  lstrip x = c :: rest -> isspace c = false.
Proof.
  induction x as [|a x IH]; simpl; [discriminate|].
  destruct (isspace a) eqn:E; [exact IH|]. intros [= <- _]. exact E.
Qed.

Lemma lstrip_split (x : str) :
  exists ws, forallb isspace ws = true /\ x = ws ++ lstrip x.
Proof.
  exists (firstn (run isspace x) x). split.
  - apply run_firstn. lia.
  - rewrite lstrip_run. symmetry. apply firstn_skipn.
Qed.

Lemma rstrip_app_space (y ws : str) :
  forallb isspace ws = true -> rstrip (y ++ ws) = rstrip y.
Proof.
  intros H. unfold rstrip. rewrite rev_app_distr, lstrip_app.
  rewrite lstrip_all_space by (rewrite forallb_rev; exact H).
  reflexivity.
Qed.

Lemma rstrip_split (x : str) :
  exists ws, forallb isspace ws = true /\ x = rstrip x ++ ws.
Proof.
  destruct (lstrip_split (rev x)) as (ws & Hws & E).
  exists (rev ws). split; [rewrite forallb_rev; exact Hws|].
  unfold rstrip. rewrite <- rev_app_distr, <- E, rev_involutive. reflexivity.
Qed.

(** Whitespace around a text does not change what [strip] returns. *)
Lemma strip_pad (ws1 x ws2 : str) :
  forallb isspace ws1 = true -> forallb isspace ws2 = true ->
  strip (ws1 ++ x ++ ws2) = strip x.
Proof.
  intros H1 H2. unfold strip.
  rewrite lstrip_app, (lstrip_all_space ws1 H1), lstrip_app.
  destruct (lstrip x) as [|c y] eqn:E.
  - rewrite (lstrip_all_space ws2 H2). reflexivity.
  - apply rstrip_app_space. exact H2.
Qed.

Lemma strip_all_space (ws : str) : forallb isspace ws = true -> strip ws = [].
Proof. intros H. unfold strip. rewrite (lstrip_all_space ws H). reflexivity. Qed.

(** A text that starts outside the whitespace keeps its first
    character under [strip]. *)
Lemma strip_cons (c : char) (x : str) :
  isspace c = false -> exists y, strip (c :: x) = c :: y.
Proof.
  intros Hc. unfold strip. simpl lstrip. rewrite Hc.
  unfold rstrip. simpl rev. rewrite lstrip_app.
  destruct (lstrip (rev x)) as [|a y] eqn:E.
  - simpl. rewrite Hc. exists []. reflexivity.
  - rewrite rev_app_distr. simpl. eexists. reflexivity.
Qed.

Lemma strip_trimmed (x : str) : trimmed (strip x) = true.
Proof.
  unfold trimmed, strip, rstrip.
  destruct (lstrip_split (rev (lstrip x))) as (ws & Hws & E).
  destruct (lstrip (rev (lstrip x))) as [|c z] eqn:Ez; [reflexivity|].
  assert (Hc : isspace c = false) by (eapply lstrip_head; exact Ez).
  apply andb_true_intro. split.
  - apply (f_equal (@rev char)) in E. rewrite rev_involutive, rev_app_distr in E.
    destruct (rev (c :: z)) as [|a y] eqn:Er.
    + apply (f_equal (@length char)) in Er. rewrite length_rev in Er. discriminate.
    + simpl in E. rewrite (lstrip_head _ _ _ E). reflexivity.
  - rewrite rev_involutive. simpl. rewrite Hc. reflexivity.
Qed.

(** ** The three patterns *)

Lemma rx_cat_cons r rs k : rx (cat (r :: rs)) k = rx r (rx (cat rs) k).
Proof. reflexivity. Qed.

Lemma rx_group i r k pos s g :
  rx (Group i r) k pos s g
  = rx r (fun pos' s' g' => k pos' s' ((i, firstn (pos' - pos) s) :: g')) pos s g.
Proof. reflexivity. Qed.

Lemma rx_alt r1 r2 k pos s g :
  rx (Alt r1 r2) k pos s g
  = match rx r1 k pos s g with Some res => Some res | None => rx r2 k pos s g end.
Proof. reflexivity. Qed.

Lemma rx_alt_is_Some r1 r2 k pos s g :
  is_Some (rx r1 k pos s g) \/ is_Some (rx r2 k pos s g) ->
  is_Some (rx (Alt r1 r2) k pos s g).
Proof.
  simpl. destruct (rx r1 k pos s g); [eauto|]. intros [[? H]|H]; [discriminate|exact H].
Qed.

(** The end of a pattern, [\s*$]: from there on only whitespace. *)
Lemma trailing_space_inv pos y g r :
  rx (cat [star isspace; Eol]) accept pos y g = Some r ->
  forallb isspace y = true /\ r = g.
Proof.
  rewrite rx_cat_cons. intros H. apply rep_inv in H as (j & Hj & H).
  unfold capped in Hj. simpl in H.
  destruct (at_eol (skipn j y)) eqn:E; [|discriminate].
  injection H as <-. split; [|reflexivity].
  rewrite <- (firstn_skipn j y), forallb_app, run_firstn by lia.
  destruct (skipn j y) as [|c [|? ?]]; [reflexivity| |discriminate].
  simpl in E. apply N.eqb_eq in E. subst c. reflexivity.
Qed.

Lemma trailing_space_nil pos g :
  rx (cat [star isspace; Eol]) accept pos [] g = Some g.
Proof. reflexivity. Qed.

Lemma hash_not_space (c : char) : isspace c = true -> N.eqb HASH c = false.
Proof.
  intros H. destruct (N.eqb_spec HASH c) as [<-|]; [discriminate H|reflexivity].
Qed.

(** What a match of [header_rx] says about the line: one to six
    markers, then whitespace, and a second group that is the rest of
    the line up to whitespace at both ends. *)
Lemma header_match_inv (line : str) (mh : groups) :
  re_match header_rx line = Some mh ->
  (1 <= run (N.eqb HASH) line <= 6)%nat
  /\ (exists c rest, skipn (run (N.eqb HASH) line) line = c :: rest /\ isspace c = true)
  /\ group 1 mh = firstn (run (N.eqb HASH) line) line
  /\ strip (group 2 mh) = strip (skipn (run (N.eqb HASH) line) line)
  /\ (run (N.eqb HASH) line + 2 <= length line)%nat.
Proof.
  unfold re_match, header_rx. rewrite rx_cat_cons. simpl (rx Bol).
  cbv beta. simpl (Nat.eqb 0 0). cbv iota.
  rewrite rx_cat_cons, rx_group. intros H.
  apply rep_inv in H as (j & Hj & H). unfold capped in Hj.
  rewrite rx_cat_cons in H. apply rep_inv in H as (i & Hi & H). unfold capped in Hi.
  rewrite rx_cat_cons, rx_group in H.
  apply rep_inv in H as (t & Ht & H). unfold capped in Ht.
  apply trailing_space_inv in H as [Htail ->].
  destruct (run_inside isspace (skipn j line) 0) as (c & rest & Hc & Hsp); [lia|].
  simpl in Hc.
  assert (Ej : j = run (N.eqb HASH) line).
  { apply (run_of_inside _ _ _ c rest); [lia|exact Hc|apply hash_not_space, Hsp]. }
  subst j. split; [lia|]. split; [exists c, rest; split; assumption|].
  split; [|split].
  - simpl. f_equal. lia.
  - simpl group.
    set (tail := skipn (run (N.eqb HASH) line) line) in *.
    match goal with |- context [firstn ?n (skipn i tail)] => replace n with t by lia end.
    rewrite <- (firstn_skipn i tail) at 2.
    rewrite <- (firstn_skipn t (skipn i tail)) at 2.
    symmetry. apply strip_pad; [apply run_firstn; lia|exact Htail].
  - pose proof (run_le_length dot (skipn i (skipn (run (N.eqb HASH) line) line))) as H1.
    rewrite !length_drop in H1. lia.
Qed.

(** Markers followed only by whitespace: with two whitespace
    characters or more the pattern matches, the last of them standing
    for the title. *)
Lemma header_match_blank_title (k : nat) (ws : str) (c : char) :
  (1 <= k <= 6)%nat -> ws <> [] -> forallb isspace ws = true ->
  isspace c = true -> dot c = true ->
  is_Some (re_match header_rx (repeat HASH k ++ ws ++ [c])).
Proof.
  intros Hk Hne Hws Hc Hdot.
  assert (Hhash : forallb (N.eqb HASH) (repeat HASH k) = true).
  { clear. induction k; simpl; [reflexivity|exact IHk]. }
  assert (Hrun : run (N.eqb HASH) (repeat HASH k ++ ws ++ [c]) = k).
  { rewrite run_app_all, repeat_length by exact Hhash.
    destruct ws as [|a ws]; [contradiction|]. simpl in Hws. apply andb_prop in Hws as [Ha _].
    simpl app. rewrite run_zero by (apply hash_not_space, Ha). lia. }
  assert (Hskip : skipn k (repeat HASH k ++ ws ++ [c]) = ws ++ [c]).
  { rewrite <- (repeat_length HASH k) at 1. apply drop_app_length. }
  unfold re_match, header_rx. rewrite rx_cat_cons. simpl (rx Bol).
  cbv beta. simpl (Nat.eqb 0 0). cbv iota.
  rewrite rx_cat_cons, rx_group.
  apply (rep_is_Some _ _ _ _ _ _ _ _ k); [rewrite Hrun; unfold capped; lia|].
  rewrite Hskip, rx_cat_cons.
  apply (rep_is_Some _ _ _ _ _ _ _ _ (length ws)).
  { rewrite run_app_all by exact Hws. simpl. destruct ws; [contradiction|simpl; lia]. }
  rewrite drop_app_length, rx_cat_cons, rx_group.
  apply (rep_is_Some _ _ _ _ _ _ _ _ 1%nat); [simpl; rewrite Hdot; simpl; lia|].
  simpl skipn. rewrite trailing_space_nil. eauto.
Qed.

Lemma header_match_none (line : str) :
  ((6 < run (N.eqb HASH) line)%nat
   \/ run (N.eqb HASH) line = O
   \/ (forall c rest, skipn (run (N.eqb HASH) line) line = c :: rest -> isspace c = false)) ->
  re_match header_rx line = None.
Proof.
  intros H. destruct (re_match header_rx line) as [mh|] eqn:E; [|reflexivity].
  apply header_match_inv in E as (Hk & (c & rest & Hc & Hsp) & _).
  destruct H as [H|[H|H]]; [lia|lia|]. rewrite (H c rest Hc) in Hsp. discriminate.
Qed.

(** [code_block_rx] does not match a line whose first character after
    the leading whitespace is neither a backtick nor a tilde. *)
Lemma fence_none (line : str) :
  (forall c rest, lstrip line = c :: rest ->
     N.eqb BACKTICK c = false /\ N.eqb TILDE c = false) ->
  re_match code_block_rx line = None.
Proof.
  intros H. unfold re_match, code_block_rx. rewrite rx_cat_cons. simpl (rx Bol).
  cbv beta. simpl (Nat.eqb 0 0). cbv iota.
  rewrite rx_cat_cons. apply rep_all_none. intros j Hj. unfold capped in Hj.
  rewrite rx_cat_cons, rx_group.
  assert (Hhead : forall c rest, skipn j line = c :: rest ->
            N.eqb BACKTICK c = false /\ N.eqb TILDE c = false).
  { intros c rest Hc. destruct (Nat.eq_dec j (run isspace line)) as [->|Hne].
    - apply (H c rest). rewrite lstrip_run. exact Hc.
    - destruct (run_inside isspace line j) as (c' & rest' & Hc' & Hsp); [lia|].
      rewrite Hc in Hc'. injection Hc' as <- <-.
      split; [destruct (N.eqb_spec BACKTICK c) as [<-|]|destruct (N.eqb_spec TILDE c) as [<-|]];
        try reflexivity; discriminate Hsp. }
  assert (Hrep : forall cls k pos g, (forall c rest, skipn j line = c :: rest -> cls c = false) ->
            rx (Rep false 3 None cls) k pos (skipn j line) g = None).
  { intros cls k pos g Hcls. apply rep_none. unfold capped.
    destruct (skipn j line) as [|c rest] eqn:E; simpl; [lia|].
    rewrite (Hcls c rest) by reflexivity. lia. }
  rewrite rx_alt.
  rewrite Hrep by (intros c rest Hc; apply (Hhead c rest Hc)).
  apply Hrep. intros c rest Hc. apply (Hhead c rest Hc).
Qed.

(** It matches a line that has, after any whitespace, three backticks
    or three tildes. *)
Lemma fence_some (ws rest : str) (c : char) :
  forallb isspace ws = true -> c = BACKTICK \/ c = TILDE ->
  is_Some (re_match code_block_rx (ws ++ [c; c; c] ++ rest)).
Proof.
  intros Hws Hc. unfold re_match, code_block_rx. rewrite rx_cat_cons. simpl (rx Bol).
  cbv beta. simpl (Nat.eqb 0 0). cbv iota. rewrite rx_cat_cons.
  apply (rep_is_Some _ _ _ _ _ _ _ _ (length ws)).
  { rewrite run_app_all by exact Hws. simpl. lia. }
  rewrite drop_app_length, rx_cat_cons, rx_group.
  apply rx_alt_is_Some.
  destruct Hc as [->| ->]; [left|right];
    (apply (rep_is_Some _ _ _ _ _ _ _ _ 3%nat); [simpl; lia|simpl; eauto]).
Qed.

Lemma rx_rep lazy lo hi cls k pos s g :
  rx (Rep lazy lo hi cls) k pos s g
  = first_some (fun j => k (pos + j)%nat (skipn j s) g) (counts lazy lo hi cls s).
Proof. reflexivity. Qed.

Lemma rx_chr_hit c k pos s g : rx (chr c) k pos (c :: s) g = k (pos + 1)%nat s g.
Proof.
  unfold chr. simpl. unfold counts. simpl. rewrite N.eqb_refl. simpl.
  change (skipn 0 s) with s. destruct (k (pos + 1)%nat s g); reflexivity.
Qed.

Lemma rx_chr_miss c c' k pos s g :
  N.eqb c c' = false -> rx (chr c) k pos (c' :: s) g = None.
Proof. intros H. apply rep_none. rewrite run_zero by exact H. simpl. lia. Qed.

Lemma rx_star_stop cls c k pos s g :
  cls c = false -> rx (star cls) k pos (c :: s) g = k pos (c :: s) g.
Proof.
  intros H. unfold star. rewrite rx_rep. unfold counts. rewrite run_zero by exact H. simpl.
  rewrite Nat.add_0_r. destruct (k pos (c :: s) g); reflexivity.
Qed.

Lemma rx_lit (p : str) k pos s g :
  rx (cat (List.map chr p)) k pos (p ++ s) g = k (pos + length p)%nat s g.
Proof.
  revert pos. induction p as [|c p IH]; intros pos; simpl List.map; simpl app; simpl length.
  - rewrite Nat.add_0_r. reflexivity.
  - rewrite rx_cat_cons, rx_chr_hit, IH. f_equal. lia.
Qed.

Lemma run_hashes (k : nat) (ws : str) :
  forallb isspace ws = true -> run (N.eqb HASH) (repeat HASH k ++ ws) = k.
Proof.
  intros Hws. rewrite run_app_all, repeat_length.
  - destruct ws as [|a ws]; [simpl; lia|]. simpl in Hws. apply andb_prop in Hws as [Ha _].
    rewrite run_zero by (apply hash_not_space, Ha). lia.
  - clear. induction k; simpl; [reflexivity|exact IHk].
Qed.

(** ** [splitlines] returns lines *)

Lemma splitlines_from_is_line (n : nat) : forall (s cur : str),
  (length s <= n)%nat -> is_line cur = true ->
  Forall (fun l => is_line l = true) (splitlines_from cur s).
Proof.
  induction n as [|n IH]; intros [|c s] cur Hn Hcur; simpl in Hn; try lia.
  - simpl. destruct cur; constructor; [|constructor].
    unfold is_line. rewrite forallb_rev. exact Hcur.
  - simpl. destruct cur; constructor; [|constructor].
    unfold is_line. rewrite forallb_rev. exact Hcur.
  - simpl. destruct (is_linebreak c) eqn:Hc.
    + constructor; [unfold is_line; rewrite forallb_rev; exact Hcur|].
      destruct s as [|c' s']; [apply IH; [simpl; lia|reflexivity]|].
      destruct (N.eqb c CR && N.eqb c' LF); apply IH; simpl in *; try lia; reflexivity.
    + apply IH; [lia|]. unfold is_line in *. simpl. rewrite Hc, Hcur. reflexivity.
Qed.

Lemma splitlines_is_line (md_text : str) :
  Forall (fun l => is_line l = true) (splitlines md_text).
Proof. apply (splitlines_from_is_line (length md_text)); [lia|reflexivity]. Qed.

Lemma is_line_dot (c : char) : is_linebreak c = false -> dot c = true.
Proof.
  intros H. unfold dot. destruct (N.eqb_spec c LF) as [->|]; [discriminate H|reflexivity].
Qed.

(** ** The scan *)

Lemma agrees_at (todecimal : char -> option Z) (c : char) :
  agrees_on_ascii todecimal = true -> (c < 128)%N -> todecimal c = ascii_decimal c.
Proof.
  unfold agrees_on_ascii. rewrite forallb_forall. intros H Hc.
  specialize (H (N.to_nat c)). rewrite N2Nat.id in H.
  assert (Hin : In (N.to_nat c) (seq 0 128)) by (apply in_seq; lia).
  specialize (H Hin). cbv zeta in H.
  destruct (todecimal c), (ascii_decimal c); try discriminate; [|reflexivity].
  apply Z.eqb_eq in H. subst. reflexivity.
Qed.

Section Scan.

Variable todecimal : char -> option Z.
Variable max_str_digits : nat.

Lemma py_int_one (c : char) (d : Z) :
  todecimal c = Some d -> py_int todecimal max_str_digits [c] = Some d.
Proof.
  intros H. unfold py_int. destruct max_str_digits as [|[|n]]; simpl; rewrite H; reflexivity.
Qed.

Lemma step_cases (st : locals) (line : str) :
  headings (step todecimal max_str_digits st line) = headings st
  \/ exists mh,
       in_code_block st = false /\ re_match header_rx line = Some mh
       /\ step todecimal max_str_digits st line
          = mkLocals (cur_page st) false
              (headings st ++ [heading (strip (group 2 mh))
                                       (Z.of_nat (length (group 1 mh))) (cur_page st)]).
Proof.
  unfold step.
  destruct (re_match code_block_rx line); [left; reflexivity|].
  destruct (in_code_block st) eqn:Hin; [left; reflexivity|].
  destruct (strip line); [left; reflexivity|].
  destruct (re_match (page_rx todecimal) _) as [mpage|].
  - destruct (py_int _ _ _); left; reflexivity.
  - destruct (re_match header_rx line) as [mh|]; [right|left; reflexivity].
    exists mh. repeat split.
Qed.

(** A line none of the three patterns matches changes nothing. *)
Lemma step_ignored (st : locals) (line : str) :
  re_match code_block_rx line = None ->
  re_match (page_rx todecimal) (strip line) = None ->
  re_match header_rx line = None ->
  step todecimal max_str_digits st line = st.
Proof.
  intros H1 H2 H3. unfold step. rewrite H1, H2, H3.
  destruct (in_code_block st); [reflexivity|]. destruct (strip line); reflexivity.
Qed.

Lemma step_page_line (st : locals) (line : str) (gs : groups) (n : Z) :
  in_code_block st = false ->
  re_match code_block_rx line = None ->
  strip line <> [] ->
  re_match (page_rx todecimal) (strip line) = Some gs ->
  py_int todecimal max_str_digits (group 1 gs) = Some n ->
  step todecimal max_str_digits st line = mkLocals (Some n) false (headings st).
Proof.
  intros H0 H1 H2 H3 H4. unfold step. rewrite H1, H0, H3, H4.
  destruct (strip line); [contradiction|reflexivity].
Qed.

Lemma step_heading_line (st : locals) (line : str) (mh : groups) :
  in_code_block st = false ->
  re_match code_block_rx line = None ->
  strip line <> [] ->
  re_match (page_rx todecimal) (strip line) = None ->
  re_match header_rx line = Some mh ->
  step todecimal max_str_digits st line
  = mkLocals (cur_page st) false
      (headings st ++ [heading (strip (group 2 mh))
                               (Z.of_nat (length (group 1 mh))) (cur_page st)]).
Proof.
  intros H0 H1 H2 H3 H4. unfold step. rewrite H1, H0, H3, H4.
  destruct (strip line); [contradiction|reflexivity].
Qed.

Lemma step_fence_line (st : locals) (line : str) :
  is_Some (re_match code_block_rx line) ->
  step todecimal max_str_digits st line
  = mkLocals (cur_page st) (negb (in_code_block st)) (headings st).
Proof. intros [gs H]. unfold step. rewrite H. reflexivity. Qed.

Lemma step_in_fence (st : locals) (line : str) :
  in_code_block st = true -> re_match code_block_rx line = None ->
  step todecimal max_str_digits st line = st.
Proof. intros H0 H1. unfold step. rewrite H1, H0. reflexivity. Qed.

Lemma step_keeps_page (st : locals) (line : str) :
  re_match (page_rx todecimal) (strip line) = None ->
  cur_page (step todecimal max_str_digits st line) = cur_page st.
Proof.
  intros H. unfold step. rewrite H.
  destruct (re_match code_block_rx line); [reflexivity|].
  destruct (in_code_block st); [reflexivity|].
  destruct (strip line); [reflexivity|].
  destruct (re_match header_rx line); reflexivity.
Qed.

Lemma scan_cons (st : locals) (l : str) (lines : list str) :
  scan todecimal max_str_digits st (l :: lines)
  = scan todecimal max_str_digits (step todecimal max_str_digits st l) lines.
Proof. reflexivity. Qed.

Lemma scan_app (st : locals) (l1 l2 : list str) :
  scan todecimal max_str_digits st (l1 ++ l2)
  = scan todecimal max_str_digits (scan todecimal max_str_digits st l1) l2.
Proof. unfold scan. apply fold_left_app. Qed.

Lemma scan_in_fence (body : list str) : forall st,
  in_code_block st = true ->
  Forall (fun l => re_match code_block_rx l = None) body ->
  scan todecimal max_str_digits st body = st.
Proof.
  induction body as [|l body IH]; intros st Hin Hbody; [reflexivity|].
  apply Forall_cons in Hbody as [Hl Hbody].
  rewrite scan_cons, step_in_fence by assumption.
  apply IH; assumption.
Qed.

(** The scan only appends to the list of headings. *)
Lemma scan_extends (lines : list str) : forall st,
  exists later, headings (scan todecimal max_str_digits st lines) = headings st ++ later.
Proof.
  induction lines as [|l lines IH]; intros st.
  - exists []. rewrite app_nil_r. reflexivity.
  - rewrite scan_cons.
    destruct (IH (step todecimal max_str_digits st l)) as [later Hl]. rewrite Hl.
    destruct (step_cases st l) as [E|(mh & _ & _ & E)]; rewrite E; simpl.
    + eauto.
    + rewrite <- app_assoc. eauto.
Qed.

(** A property of every heading the loop body can append holds for
    every heading of the result. *)
Lemma scan_Forall (P : HeadingNode -> Prop) :
  (forall st line mh, re_match header_rx line = Some mh ->
     P (heading (strip (group 2 mh)) (Z.of_nat (length (group 1 mh))) (cur_page st))) ->
  forall lines st, Forall P (headings st) ->
  Forall P (headings (scan todecimal max_str_digits st lines)).
Proof.
  intros HP. induction lines as [|l lines IH]; intros st Hst; [exact Hst|].
  rewrite scan_cons. apply IH.
  destruct (step_cases st l) as [E|(mh & _ & Hmh & E)]; rewrite E; [exact Hst|].
  simpl. apply Forall_app. split; [exact Hst|]. constructor; [|constructor].
  apply (HP st l mh Hmh).
Qed.

End Scan.

(** ** The claims about the extractor *)

Section Claims.

Variable todecimal : char -> option Z.
Variable max_str_digits : nat.
Hypothesis ascii : agrees_on_ascii todecimal = true.

(** [page_rx] needs its literal [<] right after the leading
    whitespace. *)
Lemma page_none_head (c : char) (x : str) :
  isspace c = false -> N.eqb 60 c = false ->
  re_match (page_rx todecimal) (c :: x) = None.
Proof.
  intros Hsp Hc. unfold re_match, page_rx. rewrite rx_cat_cons. simpl (rx Bol).
  cbv beta. simpl (Nat.eqb 0 0). cbv iota.
  rewrite rx_cat_cons, rx_star_stop by exact Hsp.
  change (lit "<!--PAGE:") with (cat (chr 60%N :: List.map chr (str_of "!--PAGE:"))).
  rewrite !rx_cat_cons. apply rx_chr_miss. exact Hc.
Qed.

(** And, after [<!--PAGE:], whitespace or a digit. *)
Lemma page_none_after_open (c : char) (rest : str) :
  isspace c = false -> isdecimal todecimal c = false ->
  re_match (page_rx todecimal) (PAGE_OPEN ++ c :: rest) = None.
Proof.
  intros Hsp Hd. unfold re_match, page_rx. rewrite rx_cat_cons. simpl (rx Bol).
  cbv beta. simpl (Nat.eqb 0 0). cbv iota.
  rewrite rx_cat_cons.
  change (PAGE_OPEN ++ c :: rest) with (60%N :: (str_of "!--PAGE:" ++ c :: rest)).
  rewrite rx_star_stop by reflexivity.
  change (60%N :: (str_of "!--PAGE:" ++ c :: rest)) with (str_of "<!--PAGE:" ++ c :: rest).
  rewrite rx_cat_cons. unfold lit. rewrite rx_lit.
  rewrite rx_cat_cons, rx_star_stop by exact Hsp.
  rewrite rx_cat_cons, rx_group. apply rep_none.
  rewrite run_zero by exact Hd. simpl. lia.
Qed.

Lemma hash_line_facts (rest : str) :
  re_match code_block_rx (HASH :: rest) = None
  /\ strip (HASH :: rest) <> []
  /\ re_match (page_rx todecimal) (strip (HASH :: rest)) = None.
Proof.
  destruct (strip_cons HASH rest eq_refl) as [y Hy]. rewrite Hy.
  split; [reflexivity|]. split; [discriminate|].
  apply page_none_head; reflexivity.
Qed.

Lemma step_appended (st : locals) (line : str) (h : HeadingNode) :
  headings (step todecimal max_str_digits st line) = headings st ++ [h] ->
  exists mh, re_match header_rx line = Some mh
             /\ h = heading (strip (group 2 mh)) (Z.of_nat (length (group 1 mh)))
                            (cur_page st).
Proof.
  intros H. destruct (step_cases todecimal max_str_digits st line)
    as [E|(mh & _ & Hmh & E)].
  - rewrite E in H. apply (f_equal (@length HeadingNode)) in H.
    rewrite length_app in H. simpl in H. lia.
  - rewrite E in H. simpl in H. apply app_inv_head in H. injection H as <-.
    exists mh. split; [exact Hmh|reflexivity].
Qed.

Lemma header_level (line : str) (mh : groups) :
  re_match header_rx line = Some mh ->
  length (group 1 mh) = marker_count line /\ (1 <= marker_count line <= 6)%nat.
Proof.
  intros H. apply header_match_inv in H as (Hk & _ & Hg & _ & Hlen).
  unfold marker_count. split; [|exact Hk].
  rewrite Hg, length_take. lia.
Qed.

(** C3, as the code has it: for every line that consists of one to six
    markers followed only by whitespace, scanned outside a fence, a
    heading with the empty title is recorded when the whitespace has two
    characters or more; when it has one, or none, no heading is recorded
    and the state does not change. No error is raised. *)
Theorem blank_title_heading (st : locals) (k : nat) (ws : str) :
  in_code_block st = false ->
  (1 <= k <= 6)%nat ->
  forallb isspace ws = true ->
  is_line ws = true ->
  ((2 <= length ws)%nat ->
     step todecimal max_str_digits st (repeat HASH k ++ ws)
     = mkLocals (cur_page st) false
         (headings st ++ [heading [] (Z.of_nat k) (cur_page st)]))
  /\ ((length ws <= 1)%nat ->
        step todecimal max_str_digits st (repeat HASH k ++ ws) = st).
Proof.
  intros Hst Hk Hws Hline.
  assert (Hrun : run (N.eqb HASH) (repeat HASH k ++ ws) = k) by (apply run_hashes, Hws).
  assert (Hfacts : re_match code_block_rx (repeat HASH k ++ ws) = None
                   /\ strip (repeat HASH k ++ ws) <> []
                   /\ re_match (page_rx todecimal) (strip (repeat HASH k ++ ws)) = None).
  { destruct k as [|k]; [lia|]. apply hash_line_facts. }
  destruct Hfacts as (Hfence & Hne & Hpage).
  split; intros Hlen.
  - destruct (exists_last (l := ws)) as (ws' & c & ->).
    { intros ->. simpl in Hlen. lia. }
    rewrite length_app in Hlen. simpl in Hlen.
    rewrite forallb_app in Hws. apply andb_prop in Hws as [Hws' Hc].
    simpl in Hc. rewrite andb_true_r in Hc.
    unfold is_line in Hline. rewrite forallb_app in Hline.
    apply andb_prop in Hline as [_ Hlc]. simpl in Hlc. rewrite andb_true_r in Hlc.
    apply negb_true_iff in Hlc.
    destruct (header_match_blank_title k ws' c) as [mh Hmh]; try assumption.
    { intros ->. simpl in Hlen. lia. }
    { apply is_line_dot, Hlc. }
    rewrite (step_heading_line _ _ st _ mh) by assumption.
    destruct (header_match_inv _ _ Hmh) as (_ & _ & Hg1 & Hg2 & _).
    rewrite Hrun in Hg1, Hg2.
    rewrite Hg2, Hg1, length_take.
    rewrite <- (repeat_length HASH k) at 1. rewrite drop_app_length.
    rewrite length_app, repeat_length.
    rewrite strip_all_space
      by (rewrite forallb_app, Hws'; simpl; rewrite Hc; reflexivity).
    repeat f_equal. lia.
  - apply step_ignored; try assumption.
    destruct (re_match header_rx (repeat HASH k ++ ws)) as [mh|] eqn:E; [|reflexivity].
    apply header_match_inv in E as (_ & _ & _ & _ & E).
    rewrite Hrun, length_app, repeat_length in E. lia.
Qed.

(** C5: a fence delimiter line flips the one flag, whichever character
    it is made of; from a fence-open line on nothing is recorded, so a
    heading-pattern line between it and the next delimiter line is never
    emitted; after that line, backticks or tildes alike, the scan goes on
    as if the block had not been there, and emits headings again. *)
Theorem fence_suppression (st : locals) (f1 f2 : str) (body rest : list str) :
  in_code_block st = false ->
  is_Some (re_match code_block_rx f1) ->
  Forall (fun l => re_match code_block_rx l = None) body ->
  is_Some (re_match code_block_rx f2) ->
  scan todecimal max_str_digits st (f1 :: body)
  = mkLocals (cur_page st) true (headings st)
  /\ scan todecimal max_str_digits st (f1 :: body ++ f2 :: rest)
     = scan todecimal max_str_digits st rest
  /\ (forall ws tail c, forallb isspace ws = true -> c = BACKTICK \/ c = TILDE ->
        is_Some (re_match code_block_rx (ws ++ [c; c; c] ++ tail)))
  /\ (forall tail, re_match code_block_rx (HASH :: tail) = None).
Proof.
  intros Hst H1 Hbody H2.
  assert (Hopen : scan todecimal max_str_digits st (f1 :: body)
                  = mkLocals (cur_page st) true (headings st)).
  { rewrite scan_cons, step_fence_line by exact H1. rewrite Hst.
    apply scan_in_fence; [reflexivity|exact Hbody]. }
  split; [exact Hopen|]. split; [|split].
  - rewrite app_comm_cons, scan_app, Hopen, scan_cons, step_fence_line by exact H2.
    simpl. destruct st as [p b hs]. simpl in *. subst b. reflexivity.
  - intros ws tail c. apply fence_some.
  - intros tail. apply hash_line_facts.
Qed.

(** C6: for the text with the marker of page 3, the heading A, the
    marker of page 7 and the heading B, the extractor returns A on page
    3 and B on page 7; and for every text, the headings recorded before
    any page marker have no page. *)
Theorem page_persistence :
  parse_markdown_headings todecimal max_str_digits page_example
  = [heading (str_of "A") 1 (Some 3); heading (str_of "B") 1 (Some 7)]
  /\ forall md_text pre post,
       splitlines md_text = pre ++ post ->
       Forall (fun l => re_match (page_rx todecimal) (strip l) = None) pre ->
       exists later,
         parse_markdown_headings todecimal max_str_digits md_text
         = headings (scan todecimal max_str_digits initial pre) ++ later
         /\ Forall (fun h => page h = None)
              (headings (scan todecimal max_str_digits initial pre)).
Proof.
  pose proof (agrees_at todecimal 51%N ascii eq_refl) as H51.
  pose proof (agrees_at todecimal 55%N ascii eq_refl) as H55.
  pose proof (agrees_at todecimal 45%N ascii eq_refl) as H45.
  vm_compute in H51, H55, H45.
  split.
  - unfold parse_markdown_headings.
    change (splitlines page_example)
      with [str_of "<!--PAGE:3-->"; str_of "# A"; str_of "<!--PAGE:7-->"; str_of "# B"].
    rewrite scan_cons.
    rewrite (step_page_line _ _ _ _ [(1%nat, [51%N])] 3);
      [|reflexivity|reflexivity|discriminate
       |vm_compute; rewrite H51, H45; reflexivity|apply py_int_one, H51].
    rewrite scan_cons.
    rewrite (step_heading_line _ _ _ _ [(2%nat, str_of "A"); (1%nat, [HASH])]);
      [|reflexivity|reflexivity|discriminate|reflexivity|reflexivity].
    rewrite scan_cons.
    rewrite (step_page_line _ _ _ _ [(1%nat, [55%N])] 7);
      [|reflexivity|reflexivity|discriminate
       |vm_compute; rewrite H55, H45; reflexivity|apply py_int_one, H55].
    rewrite scan_cons.
    rewrite (step_heading_line _ _ _ _ [(2%nat, str_of "B"); (1%nat, [HASH])]);
      [|reflexivity|reflexivity|discriminate|reflexivity|reflexivity].
    reflexivity.
  - intros md_text pre post Hsplit Hpre.
    unfold parse_markdown_headings. rewrite Hsplit, scan_app.
    destruct (scan_extends todecimal max_str_digits post
                (scan todecimal max_str_digits initial pre)) as [later Hl].
    exists later. split; [exact Hl|].
    assert (Hinv : forall st, cur_page st = None ->
              Forall (fun h => page h = None) (headings st) ->
              cur_page (scan todecimal max_str_digits st pre) = None
              /\ Forall (fun h => page h = None)
                   (headings (scan todecimal max_str_digits st pre))).
    { clear Hsplit Hl. induction Hpre as [|l pre Hl _ IH]; intros st Hp Hh.
      - split; assumption.
      - rewrite scan_cons. apply IH.
        + rewrite step_keeps_page by exact Hl. exact Hp.
        + destruct (step_cases todecimal max_str_digits st l)
            as [E|(mh & _ & _ & E)]; rewrite E; [exact Hh|].
          simpl. apply Forall_app. split; [exact Hh|].
          constructor; [exact Hp|constructor]. }
    apply Hinv; [reflexivity|constructor].
Qed.

(** C7: the line [<!--PAGE:abc-->] does not match the page pattern;
    processing it leaves the state as it was, the current page and the
    headings included, and raises nothing; a text scans as it does
    without that line. *)
Theorem malformed_page_marker_ignored (st : locals) :
  step todecimal max_str_digits st (str_of "<!--PAGE:abc-->") = st
  /\ re_match (page_rx todecimal) (strip (str_of "<!--PAGE:abc-->")) = None
  /\ (forall before after,
        scan todecimal max_str_digits st (before ++ str_of "<!--PAGE:abc-->" :: after)
        = scan todecimal max_str_digits st (before ++ after)).
Proof.
  assert (Hpage : re_match (page_rx todecimal) (strip (str_of "<!--PAGE:abc-->")) = None).
  { change (strip (str_of "<!--PAGE:abc-->")) with (PAGE_OPEN ++ 97%N :: str_of "bc-->").
    apply page_none_after_open; [reflexivity|].
    unfold isdecimal. rewrite (agrees_at todecimal 97%N ascii eq_refl). reflexivity. }
  assert (Hstep : forall st', step todecimal max_str_digits st' (str_of "<!--PAGE:abc-->") = st').
  { intros st'. apply step_ignored; [reflexivity|exact Hpage|reflexivity]. }
  split; [apply Hstep|]. split; [exact Hpage|].
  intros before after. rewrite !scan_app, scan_cons, Hstep. reflexivity.
Qed.

(** C8: a line that starts with more than six markers, or whose
    markers are not followed by a whitespace character, records no
    heading; a heading that is recorded has the marker count of its line
    as its level, between 1 and 6. *)
Theorem heading_marker_count (st : locals) (line : str) :
  ((6 < marker_count line)%nat ->
     headings (step todecimal max_str_digits st line) = headings st)
  /\ ((forall c rest, skipn (marker_count line) line = c :: rest -> isspace c = false) ->
        headings (step todecimal max_str_digits st line) = headings st)
  /\ (forall h, headings (step todecimal max_str_digits st line) = headings st ++ [h] ->
        level h = Z.of_nat (marker_count line) /\ 1 <= level h <= 6)
  /\ (forall md_text,
        Forall (fun h => 1 <= level h <= 6)
          (parse_markdown_headings todecimal max_str_digits md_text)).
Proof.
  assert (Hnone : re_match header_rx line = None ->
            headings (step todecimal max_str_digits st line) = headings st).
  { intros H. destruct (step_cases todecimal max_str_digits st line)
      as [E|(mh & _ & Hmh & _)]; [exact E|congruence]. }
  repeat split.
  - intros H. apply Hnone, header_match_none. left. exact H.
  - intros H. apply Hnone, header_match_none. right. right. exact H.
  - apply step_appended in H as (mh & Hmh & ->). simpl.
    apply header_level in Hmh as [-> _]. reflexivity.
  - apply step_appended in H as (mh & Hmh & ->). simpl.
    apply header_level in Hmh as [-> ?]. lia.
  - apply step_appended in H as (mh & Hmh & ->). simpl.
    apply header_level in Hmh as [-> ?]. lia.
  - intros md_text. apply scan_Forall; [|constructor].
    intros st' l mh Hmh. simpl. apply header_level in Hmh as [-> ?]. lia.
Qed.

(** C9: a line whose stripped form is [<!--PAGE:] followed by a sign,
    plus or minus, and anything after it (digits and [-->] as well) does
    not match the page pattern: the current page and the headings stay
    as they were. *)
Theorem signed_page_marker_ignored (st : locals) (line : str) (sign : char) (rest : str) :
  sign = PLUS \/ sign = MINUS ->
  strip line = PAGE_OPEN ++ sign :: rest ->
  re_match (page_rx todecimal) (strip line) = None
  /\ step todecimal max_str_digits st line = st.
Proof.
  intros Hsign Hstrip.
  assert (Hpage : re_match (page_rx todecimal) (strip line) = None).
  { rewrite Hstrip. apply page_none_after_open.
    - destruct Hsign as [->| ->]; reflexivity.
    - unfold isdecimal.
      destruct Hsign as [->| ->];
        [rewrite (agrees_at todecimal PLUS ascii eq_refl)
        |rewrite (agrees_at todecimal MINUS ascii eq_refl)]; reflexivity. }
  split; [exact Hpage|].
  destruct (rstrip_split (lstrip line)) as (ws & _ & Hl).
  fold (strip line) in Hl. rewrite Hstrip in Hl.
  apply step_ignored; [|exact Hpage|].
  - apply fence_none. intros c rest' Hc. rewrite Hc in Hl.
    injection Hl as -> _. split; reflexivity.
  - apply header_match_none. right. left.
    destruct line as [|c line']; [reflexivity|].
    destruct (N.eqb_spec HASH c) as [<-|Hne].
    + destruct (strip_cons HASH line' eq_refl) as [y Hy].
      rewrite Hy in Hstrip. discriminate Hstrip.
    + apply run_zero. apply N.eqb_neq. exact Hne.
Qed.

(** C10: every title the extractor returns has no whitespace at its
    start and none at its end: it is the text after the markers with
    the whitespace stripped from both ends; the line of one marker, four
    spaces and the word hello gives the title hello. *)
Theorem title_is_stripped :
  (forall md_text,
     Forall (fun h => trimmed (title h) = true)
       (parse_markdown_headings todecimal max_str_digits md_text))
  /\ (forall st line h,
        headings (step todecimal max_str_digits st line) = headings st ++ [h] ->
        title h = strip (skipn (marker_count line) line))
  /\ (forall st, in_code_block st = false ->
        step todecimal max_str_digits st (str_of "#    hello")
        = mkLocals (cur_page st) false
            (headings st ++ [heading (str_of "hello") 1 (cur_page st)])).
Proof.
  split; [|split].
  - intros md_text. apply scan_Forall; [|constructor].
    intros st l mh _. simpl. apply strip_trimmed.
  - intros st line h H. apply step_appended in H as (mh & Hmh & ->). simpl.
    apply header_match_inv in Hmh as (_ & _ & _ & Hg2 & _). exact Hg2.
  - intros st Hst.
    rewrite (step_heading_line _ _ _ _ [(2%nat, str_of "hello"); (1%nat, [HASH])]);
      [reflexivity|exact Hst|reflexivity|discriminate|reflexivity|reflexivity].
Qed.

End Claims.

(** The sequences the builder receives from the extractor are flat,
    with levels from 1 to 6: with seven levels of [to_dict] allowed,
    [main] gets its tree. *)
Lemma section_tree_total (todecimal : char -> option Z) (max_str_digits depth : nat)
  (md_text : str) :
  (7 <= depth)%nat ->
  exists t, section_tree todecimal max_str_digits depth md_text = Some t
            /\ levels_increase t = true.
Proof.
  intros Hdepth. unfold section_tree.
  set (hs := parse_markdown_headings todecimal max_str_digits md_text).
  assert (Hall : Forall (fun h => children h = [] /\ 1 <= level h <= 6) hs).
  { apply scan_Forall; [|constructor].
    intros st l mh Hmh. simpl. split; [reflexivity|].
    apply header_level in Hmh as [-> ?]. lia. }
  rewrite Forall_forall in Hall.
  assert (Hlook : forall a, a ∈ seq 0 (length hs) ->
            exists n, hs !! a = Some n /\ children n = [] /\ 1 <= level n <= 6).
  { intros a Ha. apply list_elem_of_In, in_seq in Ha.
    destruct (lookup_lt_is_Some_2 hs a) as [n Hn]; [lia|].
    exists n. split; [exact Hn|]. apply Hall.
    eapply list_elem_of_lookup_2. exact Hn. }
  apply build_total; [| |exact Hdepth].
  - apply Forall_forall. intros a Ha.
    destruct (Hlook a Ha) as (n & Hn & Hc & _). eauto.
  - apply Forall_forall. intros a Ha.
    destruct (Hlook a Ha) as (n & Hn & _ & Hl). unfold level_at. rewrite Hn. exact Hl.
Qed.

(** C3 as stated fails: one marker followed by one space, outside any
    fence, records nothing. *)
Lemma single_space_marker_not_recorded :
  step ascii_decimal 4300 initial (str_of "# ") = initial
  /\ parse_markdown_headings ascii_decimal 4300 (str_of "# ") = [].
Proof. split; reflexivity. Qed.

Lemma blank_title_heading_witness :
  step ascii_decimal 4300 initial (str_of "#  ")
  = mkLocals None false [heading [] 1 None].
Proof.
  apply (proj1 (blank_title_heading ascii_decimal 4300 initial 1 [32%N; 32%N]
                  eq_refl ltac:(lia) eq_refl eq_refl)).
  simpl. lia.
Defined.

Lemma fence_suppression_witness :
  headings (scan ascii_decimal 4300 initial
              [str_of "```"; str_of "# X"; str_of "~~~"; str_of "# B"])
  = [heading (str_of "B") 1 None].
Proof.
  refine (eq_trans
            (f_equal headings
               (proj1 (proj2 (fence_suppression ascii_decimal 4300 initial
                                (str_of "```") (str_of "~~~") [str_of "# X"] [str_of "# B"]
                                eq_refl _ _ _)))) _).
  - eexists. reflexivity.
  - repeat constructor.
  - eexists. reflexivity.
  - reflexivity.
Defined.

Lemma page_persistence_witness :
  parse_markdown_headings ascii_decimal 4300 page_example
  = [heading (str_of "A") 1 (Some 3); heading (str_of "B") 1 (Some 7)].
Proof. exact (proj1 (page_persistence ascii_decimal 4300 eq_refl)). Defined.

Lemma malformed_page_marker_ignored_witness :
  step ascii_decimal 4300 (mkLocals (Some 3) false []) (str_of "<!--PAGE:abc-->")
  = mkLocals (Some 3) false [].
Proof.
  exact (proj1 (malformed_page_marker_ignored ascii_decimal 4300 eq_refl
                  (mkLocals (Some 3) false []))).
Defined.

Lemma heading_marker_count_witness :
  headings (step ascii_decimal 4300 initial (str_of "####### x")) = [].
Proof.
  apply (proj1 (heading_marker_count ascii_decimal 4300 initial (str_of "####### x"))).
  vm_compute. lia.
Defined.

Lemma signed_page_marker_ignored_witness :
  step ascii_decimal 4300 (mkLocals (Some 3) false []) (str_of "  <!--PAGE:-7-->")
  = mkLocals (Some 3) false [].
Proof.
  exact (proj2 (signed_page_marker_ignored ascii_decimal 4300 eq_refl
                  (mkLocals (Some 3) false []) (str_of "  <!--PAGE:-7-->")
                  MINUS (str_of "7-->") (or_intror eq_refl) eq_refl)).
Defined.

Lemma title_is_stripped_witness :
  step ascii_decimal 4300 initial (str_of "#    hello")
  = mkLocals None false [heading (str_of "hello") 1 None].
Proof.
  exact (proj2 (proj2 (title_is_stripped ascii_decimal 4300)) initial eq_refl).
Defined.

(** * Further properties of the extractor *)

Lemma run_three (cls : char -> bool) (s : str) :
  (3 <= run cls s)%nat ->
  exists a b c rest, s = a :: b :: c :: rest
                     /\ cls a = true /\ cls b = true /\ cls c = true.
Proof.
  destruct s as [|a [|b [|c rest]]]; simpl; try lia;
    destruct (cls a) eqn:Ea; try lia;
    try (destruct (cls b) eqn:Eb; try lia);
    try (destruct (cls c) eqn:Ec; try lia).
  intros _. exists a, b, c, rest. repeat split; assumption.
Qed.

Lemma run_all (cls : char -> bool) (s : str) :
  forallb cls s = true -> run cls s = length s.
Proof.
  intros H. rewrite <- (app_nil_r s) at 1. rewrite run_app_all by exact H. simpl. lia.
Qed.

Lemma is_line_all_dot (l : str) : is_line l = true -> forallb dot l = true.
Proof.
  unfold is_line. rewrite !forallb_forall. intros H c Hc.
  apply is_line_dot. apply negb_true_iff. apply H. exact Hc.
Qed.

Lemma fence_inv (line : str) (g : groups) :
  re_match code_block_rx line = Some g -> fence_shape line = true.
Proof.
  unfold re_match, code_block_rx. rewrite rx_cat_cons. simpl (rx Bol).
  cbv beta. simpl (Nat.eqb 0 0). cbv iota. rewrite rx_cat_cons. intros H.
  apply rep_inv in H as (j & Hj & H). unfold capped in Hj.
  rewrite rx_cat_cons, rx_group, rx_alt in H.
  assert (Hthree : exists x a b c rest,
            (x = BACKTICK \/ x = TILDE)
            /\ skipn j line = a :: b :: c :: rest /\ a = x /\ b = x /\ c = x).
  { match type of H with
    | match ?first with _ => _ end = _ => destruct first as [r|] eqn:E
    end.
    - apply rep_inv in E as (i & Hi & _). unfold capped in Hi.
      destruct (run_three (N.eqb BACKTICK) (skipn j line))
        as (a & b & c & rest & Hs & Ha & Hb & Hc); [lia|].
      apply N.eqb_eq in Ha, Hb, Hc. exists BACKTICK, a, b, c, rest. auto.
    - apply rep_inv in H as (i & Hi & _). unfold capped in Hi.
      destruct (run_three (N.eqb TILDE) (skipn j line))
        as (a & b & c & rest & Hs & Ha & Hb & Hc); [lia|].
      apply N.eqb_eq in Ha, Hb, Hc. exists TILDE, a, b, c, rest. auto. }
  destruct Hthree as (x & a & b & c & rest & Hx & Hs & -> & -> & ->).
  assert (Ej : j = run isspace line).
  { apply (run_of_inside _ _ _ x (x :: x :: rest)); [lia|exact Hs|].
    destruct Hx as [->| ->]; reflexivity. }
  unfold fence_shape. rewrite lstrip_run, <- Ej, Hs.
  destruct Hx as [->| ->]; reflexivity.
Qed.

Lemma fence_shape_some (line : str) :
  fence_shape line = true -> is_Some (re_match code_block_rx line).
Proof.
  unfold fence_shape. destruct (lstrip_split line) as (ws & Hws & E).
  destruct (lstrip line) as [|a [|b [|c rest]]]; try discriminate.
  intros H. rewrite E. apply orb_prop in H as [H|H];
    apply andb_prop in H as [H Hc]; apply andb_prop in H as [Ha Hb];
    apply N.eqb_eq in Ha, Hb, Hc; subst a b c;
    apply (fence_some ws rest); auto.
Qed.

(** X1: a line is a fence delimiter for the extractor exactly when,
    after its leading whitespace, it starts with three backticks or
    three tildes, whatever follows them on the line. *)
Theorem fence_criterion (line : str) :
  is_Some (re_match code_block_rx line) <-> fence_shape line = true.
Proof.
  split; [intros [g H]; exact (fence_inv line g H)|apply fence_shape_some].
Qed.

Lemma fence_shape_none (line : str) :
  fence_shape line = false -> re_match code_block_rx line = None.
Proof.
  intros H. destruct (re_match code_block_rx line) as [g|] eqn:E; [|reflexivity].
  apply fence_inv in E. congruence.
Qed.

(** [header_rx] matches whenever the line has the shape of a
    heading. *)
Lemma header_shape_some (line : str) :
  forallb dot line = true -> heading_shape line = true ->
  is_Some (re_match header_rx line).
Proof.
  intros Hdot Hshape. unfold heading_shape in Hshape.
  apply andb_prop in Hshape as [Hk Hs]. apply andb_prop in Hk as [Hk1 Hk6].
  apply Nat.leb_le in Hk1, Hk6. unfold marker_count in *.
  destruct (skipn (run (N.eqb HASH) line) line) as [|c [|d rest]] eqn:Etail;
    try discriminate.
  unfold re_match, header_rx. rewrite rx_cat_cons. simpl (rx Bol).
  cbv beta. simpl (Nat.eqb 0 0). cbv iota.
  rewrite rx_cat_cons, rx_group.
  apply (rep_is_Some _ _ _ _ _ _ _ _ (run (N.eqb HASH) line)); [unfold capped; lia|].
  rewrite Etail, rx_cat_cons.
  apply (rep_is_Some _ _ _ _ _ _ _ _ 1%nat).
  { unfold capped. simpl. rewrite Hs. lia. }
  simpl skipn. rewrite rx_cat_cons, rx_group.
  assert (Hd : forallb dot (d :: rest) = true).
  { rewrite <- (firstn_skipn (run (N.eqb HASH) line) line), Etail, forallb_app in Hdot.
    apply andb_prop in Hdot as [_ Hdot]. simpl in Hdot.
    apply andb_prop in Hdot as [_ Hdot]. exact Hdot. }
  apply (rep_is_Some _ _ _ _ _ _ _ _ (length (d :: rest))).
  { unfold capped. rewrite run_all by exact Hd. simpl. lia. }
  rewrite drop_all, trailing_space_nil. eauto.
Qed.

Lemma header_some_shape (line : str) (mh : groups) :
  re_match header_rx line = Some mh -> heading_shape line = true.
Proof.
  intros H. apply header_match_inv in H as (Hk & (c & rest & Hc & Hsp) & _ & _ & Hlen).
  unfold heading_shape, marker_count. rewrite Hc.
  destruct rest as [|d rest].
  - apply (f_equal (@length char)) in Hc. rewrite length_drop in Hc. simpl in Hc. lia.
  - rewrite Hsp. destruct Hk as [Hk1 Hk6].
    apply Nat.leb_le in Hk1, Hk6. rewrite Hk1, Hk6. reflexivity.
Qed.

Lemma hash_line (line : str) :
  (1 <= marker_count line)%nat -> exists rest, line = HASH :: rest.
Proof.
  unfold marker_count. destruct line as [|c rest]; [simpl; lia|].
  destruct (N.eqb_spec HASH c) as [<-|Hne]; [eauto|].
  rewrite run_zero by (apply N.eqb_neq, Hne). lia.
Qed.

Section Lines.

Variable todecimal : char -> option Z.
Variable max_str_digits : nat.

Lemma page_none_nil : re_match (page_rx todecimal) [] = None.
Proof. reflexivity. Qed.

Lemma step_flag (st : locals) (line : str) :
  in_code_block (step todecimal max_str_digits st line)
  = if fence_shape line then negb (in_code_block st) else in_code_block st.
Proof.
  destruct (fence_shape line) eqn:E.
  - rewrite step_fence_line by (apply fence_shape_some, E). reflexivity.
  - unfold step. rewrite (fence_shape_none line E).
    destruct (in_code_block st) eqn:Hin; [exact Hin|].
    destruct (strip line); [exact Hin|].
    destruct (re_match (page_rx todecimal) _).
    + destruct (py_int _ _ _); simpl; [reflexivity|exact Hin].
    + destruct (re_match header_rx line); simpl; [reflexivity|exact Hin].
Qed.

Lemma step_shape_true (st : locals) (line : str) :
  in_code_block st = false -> is_line line = true -> heading_shape line = true ->
  step todecimal max_str_digits st line
  = mkLocals (cur_page st) false
      (headings st ++ [heading (strip (skipn (marker_count line) line))
                               (Z.of_nat (marker_count line)) (cur_page st)]).
Proof.
  intros Hst Hline Hshape.
  destruct (header_shape_some line (is_line_all_dot line Hline) Hshape) as [mh Hmh].
  destruct (hash_line line) as [rest ->].
  { apply header_level in Hmh. lia. }
  destruct (hash_line_facts todecimal rest) as (Hf & Hne & Hp).
  rewrite (step_heading_line _ _ st _ mh) by assumption.
  destruct (header_level _ _ Hmh) as [-> _].
  apply header_match_inv in Hmh as (_ & _ & _ & -> & _). reflexivity.
Qed.

Lemma step_shape_false (st : locals) (line : str) :
  heading_shape line = false ->
  headings (step todecimal max_str_digits st line) = headings st.
Proof.
  intros Hshape.
  destruct (step_cases todecimal max_str_digits st line)
    as [E|(mh & _ & Hmh & _)]; [exact E|].
  apply header_some_shape in Hmh. congruence.
Qed.

(** X2: outside a fence, a line without line boundaries is recorded as
    a heading exactly when it has one to six markers at its start, then
    a whitespace character, then at least one more character; the
    heading has the marker count as its level, the rest of the line
    stripped as its title and the current page, and nothing else
    changes. Any other line leaves the headings as they are. *)
Theorem heading_recognition (st : locals) (line : str) :
  in_code_block st = false ->
  is_line line = true ->
  (heading_shape line = true ->
     step todecimal max_str_digits st line
     = mkLocals (cur_page st) false
         (headings st ++ [heading (strip (skipn (marker_count line) line))
                                  (Z.of_nat (marker_count line)) (cur_page st)]))
  /\ (heading_shape line = false ->
        headings (step todecimal max_str_digits st line) = headings st).
Proof.
  intros Hst Hline. split.
  - apply step_shape_true; assumption.
  - apply step_shape_false.
Qed.

(** X3: a line that is no fence delimiter, does not start with a
    marker and whose first character after the leading whitespace is
    not [<] changes nothing: blank lines, prose, and headings that are
    indented are all passed over. *)
Theorem other_line_ignored (st : locals) (line : str) :
  fence_shape line = false ->
  marker_count line = O ->
  (forall rest, lstrip line <> LT :: rest) ->
  step todecimal max_str_digits st line = st.
Proof.
  intros Hfence Hk Hlt. apply step_ignored.
  - apply fence_shape_none, Hfence.
  - unfold strip. destruct (lstrip line) as [|c y] eqn:E; [apply page_none_nil|].
    destruct (strip_cons c y (lstrip_head _ _ _ E)) as [z Hz].
    unfold strip in Hz. simpl lstrip in Hz. rewrite (lstrip_head _ _ _ E) in Hz.
    rewrite Hz. apply page_none_head; [exact (lstrip_head _ _ _ E)|].
    destruct (N.eqb_spec 60 c) as [<-|]; [|reflexivity].
    exfalso. apply (Hlt y). reflexivity.
  - apply header_match_none. right. left. exact Hk.
Qed.

(** X4: after any lines, the extractor is inside a fence exactly when
    it has read an odd number of fence delimiter lines (starting outside
    one): an unclosed fence hides everything after it. *)
Theorem fence_parity (st : locals) (lines : list str) :
  in_code_block (scan todecimal max_str_digits st lines)
  = xorb (in_code_block st) (Nat.odd (length (List.filter fence_shape lines))).
Proof.
  revert st. induction lines as [|l lines IH]; intros st.
  - simpl. rewrite xorb_false_r. reflexivity.
  - rewrite scan_cons, IH, step_flag. simpl List.filter.
    destruct (fence_shape l); [|reflexivity].
    simpl length. rewrite Nat.odd_succ, <- Nat.negb_odd.
    destruct (in_code_block st), (Nat.odd _); reflexivity.
Qed.

Lemma scan_count (lines : list str) : forall st,
  Forall (fun l => is_line l = true) lines ->
  length (headings (scan todecimal max_str_digits st lines))
  = (length (headings st) + count_heading_lines (in_code_block st) lines)%nat.
Proof.
  induction lines as [|l lines IH]; intros st Hlines.
  - simpl. lia.
  - apply Forall_cons in Hlines as [Hl Hlines].
    rewrite scan_cons, IH, step_flag by exact Hlines. simpl count_heading_lines.
    destruct (fence_shape l) eqn:Ef.
    + rewrite step_fence_line by (apply fence_shape_some, Ef). simpl. reflexivity.
    + destruct (in_code_block st) eqn:Hin.
      * rewrite step_in_fence by (try apply fence_shape_none; assumption).
        reflexivity.
      * destruct (heading_shape l) eqn:Eh.
        -- rewrite step_shape_true by assumption. simpl. rewrite length_app. simpl. lia.
        -- rewrite step_shape_false by assumption. lia.
Qed.

(** X5: for every text, the number of headings the extractor returns
    is the number of lines of heading shape outside the fences: each
    such line gives one heading and no other line gives any. *)
Theorem heading_count (md_text : str) :
  length (parse_markdown_headings todecimal max_str_digits md_text)
  = count_heading_lines false (splitlines md_text).
Proof.
  unfold parse_markdown_headings. rewrite scan_count by apply splitlines_is_line.
  reflexivity.
Qed.

(** X6: the scan only ever appends: the headings recorded for the
    lines read so far stay as they are, in their order, whatever lines
    follow. *)
Theorem scan_appends_only (st : locals) (read more : list str) :
  exists later,
    headings (scan todecimal max_str_digits st (read ++ more))
    = headings (scan todecimal max_str_digits st read) ++ later.
Proof. rewrite scan_app. apply scan_extends. Qed.

End Lines.

Lemma heading_recognition_witness :
  step ascii_decimal 4300 initial (str_of "## Intro ")
  = mkLocals None false [heading (str_of "Intro") 2 None].
Proof.
  exact (proj1 (heading_recognition ascii_decimal 4300 initial (str_of "## Intro ")
                  eq_refl eq_refl) eq_refl).
Defined.

Lemma other_line_ignored_witness :
  step ascii_decimal 4300 initial (str_of "  # indented") = initial.
Proof.
  apply (other_line_ignored ascii_decimal 4300 initial (str_of "  # indented")
           eq_refl eq_refl).
  intros rest H. discriminate H.
Defined.

(** ** Page markers *)

Lemma rep_greedy_at lo hi cls k pos s g n r :
  capped hi (run cls s) = n -> (lo <= n)%nat ->
  k (pos + n)%nat (skipn n s) g = Some r ->
  rx (Rep false lo hi cls) k pos s g = Some r.
Proof.
  intros Hn Hlo Hk. rewrite rx_rep. unfold counts. rewrite Hn.
  replace (S n - lo)%nat with (S (n - lo)) by lia.
  rewrite seq_S, rev_app_distr. simpl.
  replace (lo + (n - lo))%nat with n by lia. rewrite Hk. reflexivity.
Qed.

Lemma run_prefix (cls : char -> bool) (l rest : str) :
  forallb cls l = true ->
  match rest with c :: _ => cls c = false | [] => True end ->
  run cls (l ++ rest) = length l.
Proof.
  intros Hl Hrest. rewrite run_app_all by exact Hl.
  destruct rest as [|c rest]; simpl; [lia|]. rewrite Hrest. lia.
Qed.

Lemma space_not_decimal (todecimal : char -> option Z) (c : char) :
  spaces_not_decimal todecimal = true -> isspace c = true ->
  isdecimal todecimal c = false.
Proof.
  unfold spaces_not_decimal, isspace. rewrite forallb_forall. intros H Hc.
  apply existsb_exists in Hc as (x & Hx & E). apply N.eqb_eq in E. subst x.
  apply negb_true_iff. apply H. exact Hx.
Qed.

Lemma decimal_not_space (todecimal : char -> option Z) (c : char) :
  spaces_not_decimal todecimal = true -> isdecimal todecimal c = true ->
  isspace c = false.
Proof.
  intros H Hd. destruct (isspace c) eqn:E; [|reflexivity].
  rewrite (space_not_decimal todecimal c H E) in Hd. discriminate.
Qed.

Section Pages.

Variable todecimal : char -> option Z.
Variable max_str_digits : nat.
Hypothesis ascii : agrees_on_ascii todecimal = true.
Hypothesis spaces : spaces_not_decimal todecimal = true.

(** The page pattern on a stripped marker: group 1 is the run of
    digits. *)
Lemma page_match (ws1 ds ws2 : str) :
  forallb isspace ws1 = true -> forallb isspace ws2 = true ->
  ds <> [] -> forallb (isdecimal todecimal) ds = true ->
  re_match (page_rx todecimal) (PAGE_OPEN ++ ws1 ++ ds ++ ws2 ++ PAGE_CLOSE)
  = Some [(1%nat, ds)].
Proof.
  intros Hws1 Hws2 Hne Hds.
  destruct ds as [|d ds']; [contradiction|].
  assert (Hd : isdecimal todecimal d = true) by (simpl in Hds; apply andb_prop in Hds; tauto).
  assert (Hminus : isdecimal todecimal 45%N = false).
  { unfold isdecimal. rewrite (agrees_at todecimal 45%N ascii eq_refl). reflexivity. }
  unfold re_match, page_rx. rewrite rx_cat_cons. simpl (rx Bol).
  cbv beta. simpl (Nat.eqb 0 0). cbv iota. rewrite rx_cat_cons.
  set (after := ws1 ++ (d :: ds') ++ ws2 ++ PAGE_CLOSE).
  change (PAGE_OPEN ++ after) with (60%N :: (str_of "!--PAGE:" ++ after)).
  rewrite rx_star_stop by reflexivity.
  change (60%N :: (str_of "!--PAGE:" ++ after)) with (str_of "<!--PAGE:" ++ after).
  rewrite rx_cat_cons. unfold lit. rewrite rx_lit. rewrite rx_cat_cons.
  unfold after.
  apply (rep_greedy_at _ _ _ _ _ _ _ (length ws1)); [| lia |].
  { unfold capped. apply run_prefix; [exact Hws1|].
    simpl. apply (decimal_not_space todecimal d spaces Hd). }
  rewrite drop_app_length, rx_cat_cons, rx_group.
  apply (rep_greedy_at _ _ _ _ _ _ _ (length (d :: ds'))); [| simpl; lia |].
  { unfold capped. apply run_prefix; [exact Hds|].
    destruct ws2 as [|c ws2]; simpl; [exact Hminus|].
    simpl in Hws2. apply andb_prop in Hws2 as [Hc _].
    apply (space_not_decimal todecimal c spaces Hc). }
  rewrite drop_app_length.
  match goal with |- context [firstn ?n ((d :: ds') ++ ?rest)] =>
    replace (firstn n ((d :: ds') ++ rest)) with (d :: ds')
  end.
  2:{ match goal with |- _ = firstn ?n _ => replace n with (length (d :: ds')) by lia end.
      rewrite take_app_length. reflexivity. }
  rewrite rx_cat_cons.
  apply (rep_greedy_at _ _ _ _ _ _ _ (length ws2)); [| lia |].
  { unfold capped. apply run_prefix; [exact Hws2|reflexivity]. }
  rewrite drop_app_length, rx_cat_cons.
  rewrite <- (app_nil_r PAGE_CLOSE). unfold PAGE_CLOSE, lit. rewrite rx_lit.
  reflexivity.
Qed.

Lemma page_open_line (line rest : str) :
  strip line = PAGE_OPEN ++ rest ->
  re_match code_block_rx line = None /\ strip line <> [].
Proof.
  intros Hstrip. split; [|rewrite Hstrip; discriminate].
  destruct (rstrip_split (lstrip line)) as (ws & _ & Hl).
  fold (strip line) in Hl. rewrite Hstrip in Hl.
  apply fence_none. intros c rest' Hc. rewrite Hc in Hl.
  injection Hl as -> _. split; reflexivity.
Qed.

Lemma decimal_value_some (ds : str) : forall acc,
  forallb (isdecimal todecimal) ds = true ->
  exists n, decimal_value todecimal acc ds = Some n.
Proof.
  induction ds as [|d ds IH]; intros acc H; simpl; [eauto|].
  simpl in H. apply andb_prop in H as [Hd Hds]. unfold isdecimal in Hd.
  destruct (todecimal d); [apply IH, Hds|discriminate].
Qed.

Lemma decimal_value_ascii (ds : str) : forall acc,
  forallb (fun c => N.leb 48 c && N.leb c 57)%N ds = true ->
  decimal_value todecimal acc ds
  = Some (fold_left (fun a c => 10 * a + (Z.of_N c - 48)) ds acc).
Proof.
  induction ds as [|d ds IH]; intros acc H; simpl; [reflexivity|].
  simpl in H. apply andb_prop in H as [Hd Hds].
  assert (Hlt : (d < 128)%N).
  { apply andb_prop in Hd as [_ Hd]. apply N.leb_le in Hd. lia. }
  rewrite (agrees_at todecimal d ascii Hlt). unfold ascii_decimal. rewrite Hd.
  apply IH, Hds.
Qed.

(** X7: outside a fence, a line whose stripped form is [<!--PAGE:],
    optional whitespace, one or more decimal digits, optional whitespace
    and [-->] sets the current page to the number the digits spell (for
    ASCII digits their usual value, leading zeros allowed) when their
    count is within the limit of [int]; the headings and the fence flag
    stay as they are. *)
Theorem page_marker_sets_page (st : locals) (line ws1 ds ws2 : str) :
  in_code_block st = false ->
  strip line = PAGE_OPEN ++ ws1 ++ ds ++ ws2 ++ PAGE_CLOSE ->
  forallb isspace ws1 = true -> forallb isspace ws2 = true ->
  ds <> [] -> forallb (isdecimal todecimal) ds = true ->
  max_str_digits = O \/ (length ds <= max_str_digits)%nat ->
  exists n,
    decimal_value todecimal 0 ds = Some n
    /\ step todecimal max_str_digits st line = mkLocals (Some n) false (headings st)
    /\ (forallb (fun c => N.leb 48 c && N.leb c 57)%N ds = true ->
        n = fold_left (fun a c => 10 * a + (Z.of_N c - 48)) ds 0).
Proof.
  intros Hst Hstrip Hws1 Hws2 Hne Hds Hlimit.
  destruct (decimal_value_some ds 0 Hds) as [n Hn]. exists n.
  destruct (page_open_line line _ Hstrip) as [Hfence Hnonempty].
  split; [exact Hn|]. split.
  - apply (step_page_line _ _ st line [(1%nat, ds)] n); try assumption.
    + rewrite Hstrip. apply page_match; assumption.
    + simpl group. unfold py_int. destruct ds as [|d ds']; [contradiction|].
      replace (Nat.ltb 0 max_str_digits && Nat.ltb max_str_digits (length (d :: ds')))
        with false; [exact Hn|].
      symmetry. apply andb_false_iff.
      destruct Hlimit as [->|Hle]; [left; reflexivity|right; apply Nat.ltb_ge, Hle].
  - intros Hascii. rewrite (decimal_value_ascii ds 0 Hascii) in Hn.
    injection Hn as <-. reflexivity.
Qed.

(** X8: when such a marker has more digits than the limit of [int],
    the conversion fails, the failure is swallowed, and the line changes
    nothing: the current page keeps its earlier value. *)
Theorem page_marker_over_limit (st : locals) (line ws1 ds ws2 : str) :
  strip line = PAGE_OPEN ++ ws1 ++ ds ++ ws2 ++ PAGE_CLOSE ->
  forallb isspace ws1 = true -> forallb isspace ws2 = true ->
  forallb (isdecimal todecimal) ds = true ->
  (0 < max_str_digits < length ds)%nat ->
  step todecimal max_str_digits st line = st.
Proof.
  intros Hstrip Hws1 Hws2 Hds Hlimit.
  destruct (page_open_line line _ Hstrip) as [Hfence Hnonempty].
  assert (Hne : ds <> []) by (intros ->; simpl in Hlimit; lia).
  unfold step. rewrite Hfence.
  destruct (in_code_block st); [reflexivity|].
  destruct (strip line) as [|c y] eqn:E; [reflexivity|].
  rewrite Hstrip, page_match by assumption.
  simpl group. unfold py_int. destruct ds as [|d ds']; [contradiction|].
  replace (Nat.ltb 0 max_str_digits) with true by (symmetry; apply Nat.ltb_lt; lia).
  replace (Nat.ltb max_str_digits (length (d :: ds'))) with true
    by (symmetry; apply Nat.ltb_lt; lia).
  reflexivity.
Qed.

End Pages.

Lemma page_marker_sets_page_witness :
  step ascii_decimal 4300 initial (str_of "  <!--PAGE: 007 -->  ")
  = mkLocals (Some 7) false [].
Proof.
  destruct (page_marker_sets_page ascii_decimal 4300 eq_refl eq_refl initial
              (str_of "  <!--PAGE: 007 -->  ") [32%N] (str_of "007") [32%N]
              eq_refl eq_refl eq_refl eq_refl ltac:(discriminate) eq_refl
              ltac:(right; simpl; lia))
    as (n & Hn & Hstep & _).
  injection Hn as <-. exact Hstep.
Defined.

Lemma page_marker_over_limit_witness :
  step ascii_decimal 640 (mkLocals (Some 5) false [])
    (PAGE_OPEN ++ repeat 49%N 641 ++ PAGE_CLOSE)
  = mkLocals (Some 5) false [].
Proof.
  apply (page_marker_over_limit ascii_decimal 640 eq_refl eq_refl
           (mkLocals (Some 5) false []) (PAGE_OPEN ++ repeat 49%N 641 ++ PAGE_CLOSE)
           [] (repeat 49%N 641) []).
  - vm_compute. reflexivity.
  - reflexivity.
  - reflexivity.
  - vm_compute. reflexivity.
  - rewrite repeat_length. lia.
Defined.

(** ** Line endings *)

Lemma splitlines_from_line (l : str) : forall cur rest,
  is_line l = true ->
  splitlines_from cur (l ++ rest) = splitlines_from (rev l ++ cur) rest.
Proof.
  induction l as [|c l IH]; intros cur rest Hl; [reflexivity|].
  unfold is_line in Hl. simpl in Hl. apply andb_prop in Hl as [Hc Hl].
  apply negb_true_iff in Hc. simpl. rewrite Hc, IH by exact Hl.
  rewrite <- app_assoc. reflexivity.
Qed.

Lemma splitlines_from_terminator (term rest cur : str) :
  is_terminator term = true -> no_merge term rest ->
  splitlines_from cur (term ++ rest) = rev cur :: splitlines_from [] rest.
Proof.
  intros Hterm Hmerge. destruct term as [|a [|b [|? ?]]]; try discriminate.
  - simpl in Hterm. simpl. rewrite Hterm. f_equal.
    destruct rest as [|c' rest']; [reflexivity|].
    destruct (N.eqb_spec a CR) as [->|Hne]; [|reflexivity].
    specialize (Hmerge eq_refl). simpl in Hmerge.
    destruct (N.eqb_spec c' LF) as [->|]; [contradiction|reflexivity].
  - simpl in Hterm. apply andb_prop in Hterm as [Ha Hb].
    apply N.eqb_eq in Ha, Hb. subst a b. reflexivity.
Qed.

Lemma is_line_head (l rest : str) (c : char) :
  is_line l = true -> l = c :: rest -> c <> LF.
Proof.
  intros Hl ->. unfold is_line in Hl. simpl in Hl. apply andb_prop in Hl as [Hc _].
  intros ->. discriminate Hc.
Qed.

Lemma join_no_merge (term : str) (lines : list str) (last : str) :
  is_terminator term = true ->
  Forall (fun l => is_line l = true) lines -> is_line last = true ->
  no_merge term (join_lines term lines ++ last).
Proof.
  intros Hterm Hlines Hlast ->. destruct lines as [|l lines].
  - simpl. destruct last as [|c rest] eqn:E; [exact I|].
    apply (is_line_head (c :: rest) rest c Hlast eq_refl).
  - apply Forall_cons in Hlines as [Hl _]. unfold join_lines. simpl.
    destruct l as [|c rest]; simpl; [discriminate|].
    apply (is_line_head (c :: rest) rest c Hl eq_refl).
Qed.

Lemma splitlines_join (term : str) (lines : list str) (last : str) :
  is_terminator term = true ->
  Forall (fun l => is_line l = true) lines -> is_line last = true ->
  splitlines (join_lines term lines ++ last)
  = lines ++ match last with [] => [] | _ => [last] end.
Proof.
  intros Hterm Hlines Hlast. unfold splitlines.
  induction Hlines as [|l lines Hl Hlines IH].
  - simpl. rewrite <- (app_nil_r last) at 1.
    rewrite splitlines_from_line by exact Hlast. rewrite app_nil_r. simpl.
    destruct last as [|c rest]; [reflexivity|].
    destruct (rev (c :: rest)) eqn:E.
    + apply (f_equal (@length char)) in E. rewrite length_rev in E. discriminate.
    + rewrite <- E, rev_involutive. reflexivity.
  - unfold join_lines. simpl. fold (join_lines term lines).
    rewrite <- !app_assoc, splitlines_from_line by exact Hl.
    rewrite splitlines_from_terminator
      by (try apply join_no_merge; assumption).
    rewrite app_nil_r, rev_involutive, IH. reflexivity.
Qed.

Section Endings.

Variable todecimal : char -> option Z.
Variable max_str_digits : nat.

(** X9: the headings do not depend on the line-ending convention. A
    text made of lines that each end in one terminator (any single line
    boundary, or a carriage return and a line feed) is read back as
    those lines; so two texts with the same lines and different
    terminators give the same headings, and a last line without a
    terminator is read like one that has it. *)
Theorem line_endings_do_not_matter (lines : list str) (t1 t2 : str) :
  Forall (fun l => is_line l = true) lines ->
  is_terminator t1 = true -> is_terminator t2 = true ->
  splitlines (join_lines t1 lines) = lines
  /\ parse_markdown_headings todecimal max_str_digits (join_lines t1 lines)
     = parse_markdown_headings todecimal max_str_digits (join_lines t2 lines)
  /\ (forall last, is_line last = true -> last <> [] ->
        parse_markdown_headings todecimal max_str_digits (join_lines t1 lines ++ last)
        = parse_markdown_headings todecimal max_str_digits
            (join_lines t1 (lines ++ [last]))).
Proof.
  intros Hlines H1 H2.
  assert (Hsplit : forall t, is_terminator t = true ->
            splitlines (join_lines t lines) = lines).
  { intros t Ht. rewrite <- (app_nil_r (join_lines t lines)).
    rewrite splitlines_join by (try assumption; reflexivity).
    apply app_nil_r. }
  split; [apply Hsplit, H1|]. split.
  - unfold parse_markdown_headings. rewrite !Hsplit by assumption. reflexivity.
  - intros last Hlast Hne. unfold parse_markdown_headings.
    rewrite splitlines_join by assumption.
    rewrite <- (app_nil_r (join_lines t1 (lines ++ [last]))).
    rewrite splitlines_join; [|exact H1| |reflexivity].
    + rewrite app_nil_r. destruct last; [contradiction|reflexivity].
    + apply Forall_app. split; [exact Hlines|]. constructor; [exact Hlast|constructor].
Qed.

End Endings.

Lemma line_endings_do_not_matter_witness :
  parse_markdown_headings ascii_decimal 4300
    (str_of "# A" ++ [CR; LF] ++ str_of "## B" ++ [CR; LF])
  = parse_markdown_headings ascii_decimal 4300
      (str_of "# A" ++ [LF] ++ str_of "## B" ++ [LF]).
Proof.
  exact (proj1 (proj2 (line_endings_do_not_matter ascii_decimal 4300
                         [str_of "# A"; str_of "## B"] [CR; LF] [LF]
                         ltac:(repeat constructor) eq_refl eq_refl))).
Defined.

(** * Further properties of the builder *)

Lemma pop_while_length (s : store) (lvl : Z) (stack : list addr) :
  (length (pop_while s lvl stack) <= length stack)%nat.
Proof.
  induction stack as [|top rest IH]; simpl; [lia|].
  destruct (lvl <=? level_at s top); simpl; lia.
Qed.

Lemma pops_total (root : addr) (hs : list addr) : forall st,
  (pops root st hs + length (snd (run_loop root st hs))
   = length (snd st) + length hs)%nat.
Proof.
  induction hs as [|h rest IH]; intros [s stack]; [simpl; lia|].
  change (run_loop root (s, stack) (h :: rest))
    with (run_loop root (loop_body root (s, stack) h) rest).
  simpl pops. rewrite <- Nat.add_assoc, IH. simpl.
  pose proof (pop_while_length s (level_at s h) stack). lia.
Qed.

(** X10: over a whole call the loop pops at most as many stack entries
    as there are headings: each heading is pushed once and popped at
    most once, so the builder runs in linear time. The pops and the
    entries left on the stack add up to the number of headings. *)
Theorem build_pops_linear (s : store) (hs : list addr) :
  (pops (length s) (s ++ [ROOT], []) hs <= length hs)%nat
  /\ (pops (length s) (s ++ [ROOT], []) hs + length (snd (build_store s hs))
      = length hs)%nat.
Proof.
  pose proof (pops_total (length s) hs (s ++ [ROOT], [])) as H.
  simpl in H. unfold build_store. split; [lia|exact H].
Qed.

(** ** The frames [to_dict] needs *)

Lemma list_max_map_le (ts : list dict) (d : nat) :
  Forall (fun t => (height t <= d)%nat) ts -> (list_max (List.map height ts) <= d)%nat.
Proof.
  induction 1 as [|t ts Ht _ IH]; simpl; [lia|]. lia.
Qed.

Lemma list_max_map_ge (ts : list dict) (t : dict) :
  t ∈ ts -> (height t <= list_max (List.map height ts))%nat.
Proof.
  induction 1 as [t ts|t u ts _ IH]; simpl; lia.
Qed.

Lemma to_dict_height (d : nat) : forall (s : store) (a : addr) (t : dict),
  to_dict d s a = Some t ->
  (height t <= d)%nat
  /\ forall d', (height t <= d')%nat -> to_dict d' s a = Some t.
Proof.
  induction d as [|d IH]; intros s a t H; [discriminate|].
  simpl in H. destruct (s !! a) as [n|] eqn:Hn; [|discriminate].
  destruct (mapM (to_dict d s) (children n)) as [cs|] eqn:Hcs; [|discriminate].
  injection H as <-. apply mapM_Some_1 in Hcs.
  assert (Hall : Forall (fun t => (height t <= d)%nat) cs).
  { clear Hn. induction Hcs as [|c t cl tl Hc _ IHc]; constructor; [|exact IHc].
    apply (IH s c t Hc). }
  split.
  - simpl. pose proof (list_max_map_le cs d Hall). lia.
  - intros [|d'] Hd'; simpl in Hd'; [lia|]. simpl. rewrite Hn.
    rewrite (mapM_Some_2 (to_dict d' s) (children n) cs); [reflexivity|].
    assert (Hmem : forall t, t ∈ cs -> (height t <= d')%nat).
    { intros t Ht. pose proof (list_max_map_ge cs t Ht). lia. }
    clear Hn Hd' Hall. induction Hcs as [|c t cl tl Hc _ IHc]; constructor.
    + apply (IH s c t Hc). apply Hmem. left.
    + apply IHc. intros u Hu. apply Hmem. right. exact Hu.
Qed.

Lemma to_dict_at_depth (s : store) (a : addr) (d : nat) (t : dict) :
  to_dict d s a = Some t ->
  forall d', to_dict d' s a = if Nat.leb (height t) d' then Some t else None.
Proof.
  intros H d'. destruct (to_dict_height d s a t H) as [Hd Hup].
  destruct (Nat.leb_spec (height t) d') as [Hle|Hgt]; [apply Hup, Hle|].
  destruct (to_dict d' s a) as [t'|] eqn:E; [|reflexivity].
  destruct (to_dict_height d' s a t' E) as [Hd' Hup'].
  assert (Ht : Some t = Some t').
  { rewrite <- (Hup (Nat.max d d')) by lia. apply Hup'. lia. }
  injection Ht as ->. lia.
Qed.

Lemma leb_frames (own_frame : bool) (k frames : nat) :
  Nat.leb (frame_cost own_frame * k) frames = Nat.leb k (levels_allowed own_frame frames).
Proof.
  pose proof (levels_allowed_le own_frame k frames) as H.
  destruct (Nat.leb_spec (frame_cost own_frame * k) frames) as [H1|H1],
           (Nat.leb_spec k (levels_allowed own_frame frames)) as [H2|H2];
    try reflexivity.
  - apply H in H1. lia.
  - apply H in H2. lia.
Qed.

Lemma to_dict_at_frames (own_frame : bool) (s : store) (a : addr) (frames : nat) (t : dict) :
  to_dict_frames own_frame frames s a = Some t ->
  forall frames',
    to_dict_frames own_frame frames' s a
    = if Nat.leb (frame_cost own_frame * height t) frames' then Some t else None.
Proof.
  intros H frames'. rewrite to_dict_frames_levels in H.
  rewrite to_dict_frames_levels, leb_frames.
  apply (to_dict_at_depth s a _ t H).
Qed.

(** X11: [to_dict] needs exactly as many frames as the tree is high
    times what a level costs: one frame where comprehensions are
    inlined (CPython from 3.12 on), two where the list comprehension of
    its body has a frame of its own (up to 3.11). Once it returns a
    tree with some number of frames, it returns the same tree with
    every number of frames from that product on, and raises
    [RecursionError] with every smaller one. *)
Theorem to_dict_depth (own_frame : bool) (s : store) (a : addr) (frames : nat)
  (t : dict) :
  to_dict_frames own_frame frames s a = Some t ->
  forall frames',
    to_dict_frames own_frame frames' s a
    = if Nat.leb (frame_cost own_frame * height t) frames' then Some t else None.
Proof.
  intros H frames'. rewrite (to_dict_at_frames own_frame s a frames t H frames').
  reflexivity.
Qed.

(** The level jump gives a tree of height 3: with comprehensions in
    their own frame it fails with 5 frames and is returned with 6;
    inlined, it fails with 2 and is returned with 3. *)
Lemma to_dict_depth_witness :
  build_tree_frames true 5 jump_example [0; 1]%nat = None
  /\ build_tree_frames true 6 jump_example [0; 1]%nat
     = Some (Dict (str_of "ROOT") 0 None
               [Dict (str_of "A") 1 None [Dict (str_of "B") 3 None []]])
  /\ build_tree_frames false 2 jump_example [0; 1]%nat = None
  /\ build_tree_frames false 3 jump_example [0; 1]%nat
     = Some (Dict (str_of "ROOT") 0 None
               [Dict (str_of "A") 1 None [Dict (str_of "B") 3 None []]]).
Proof.
  split; [|split; [|split]].
  - exact (to_dict_depth true (fst (build_store jump_example [0; 1]%nat)) 2%nat 9
             (Dict (str_of "ROOT") 0 None
                [Dict (str_of "A") 1 None [Dict (str_of "B") 3 None []]])
             eq_refl 5%nat).
  - exact (to_dict_depth true (fst (build_store jump_example [0; 1]%nat)) 2%nat 9
             (Dict (str_of "ROOT") 0 None
                [Dict (str_of "A") 1 None [Dict (str_of "B") 3 None []]])
             eq_refl 6%nat).
  - exact (to_dict_depth false (fst (build_store jump_example [0; 1]%nat)) 2%nat 9
             (Dict (str_of "ROOT") 0 None
                [Dict (str_of "A") 1 None [Dict (str_of "B") 3 None []]])
             eq_refl 2%nat).
  - exact (to_dict_depth false (fst (build_store jump_example [0; 1]%nat)) 2%nat 9
             (Dict (str_of "ROOT") 0 None
                [Dict (str_of "A") 1 None [Dict (str_of "B") 3 None []]])
             eq_refl 3%nat).
Defined.

(** ** The tree keeps the sequence *)

Lemma dict_induction (P : dict -> Prop) :
  (forall x l p cs, Forall P cs -> P (Dict x l p cs)) -> forall t, P t.
Proof.
  intros H. fix IH 1. intros [x l p cs]. apply H.
  induction cs as [|c cs IHcs]; constructor; [apply IH|exact IHcs].
Qed.

Lemma height_le_size (t : dict) : (height t <= length (flatten t))%nat.
Proof.
  induction t as [x l p cs IH] using dict_induction. simpl.
  apply le_n_S. induction IH as [|c cs Hc _ IHcs]; simpl; [lia|].
  rewrite length_app. lia.
Qed.

Lemma treeof_unique (s : store) (a : addr) (t t' : dict) :
  treeof s a t -> treeof s a t' -> t = t'.
Proof.
  intros [d H] [d' H'].
  destruct (to_dict_height d s a t H) as [Hd Hup].
  destruct (to_dict_height d' s a t' H') as [Hd' Hup'].
  assert (E : Some t = Some t').
  { rewrite <- (Hup (Nat.max d d')) by lia. apply Hup'. lia. }
  injection E as ->. reflexivity.
Qed.

Lemma treeof_common_depth (s : store) (cl : list addr) (cs : list dict) :
  Forall2 (treeof s) cl cs ->
  exists d, Forall2 (fun c t => to_dict d s c = Some t) cl cs.
Proof.
  induction 1 as [|c t cl cs [d1 H1] _ [d2 H2]].
  - exists O. constructor.
  - exists (Nat.max d1 d2). constructor.
    + apply (to_dict_height d1 s c t H1). pose proof (proj1 (to_dict_height d1 s c t H1)). lia.
    + eapply Forall2_impl; [exact H2|]. intros c' t' Hc. simpl in Hc.
      apply (to_dict_height d2 s c' t' Hc).
      pose proof (proj1 (to_dict_height d2 s c' t' Hc)). lia.
Qed.

Lemma treeof_node (s : store) (a : addr) (n : HeadingNode) (cs : list dict) :
  s !! a = Some n -> Forall2 (treeof s) (children n) cs ->
  treeof s a (Dict (title n) (level n) (page n) cs).
Proof.
  intros Hn Hcs. destruct (treeof_common_depth s _ _ Hcs) as [d Hd].
  exists (S d). simpl. rewrite Hn, (mapM_Some_2 _ _ _ Hd). reflexivity.
Qed.

(** Appending a child to an object outside the finished subtrees leaves
    those subtrees as they are. *)
Lemma to_dict_frame (s : store) (C : addr -> Prop) (p h : addr) :
  closed_under s C -> ~ C p ->
  forall d x, C x -> to_dict d (append_child s p h) x = to_dict d s x.
Proof.
  intros Hclosed Hp. induction d as [|d IH]; intros x Hx; [reflexivity|].
  simpl. rewrite lookup_append_child_ne by (intros ->; contradiction).
  destruct (Hclosed x Hx) as (n & Hn & Hch). rewrite Hn.
  rewrite (Forall_mapM_ext _ (to_dict d s) (children n)); [reflexivity|].
  eapply Forall_impl; [exact Hch|]. intros c Hc. apply IH, Hc.
Qed.

Lemma treeof_frame (s : store) (C : addr -> Prop) (p h : addr) (cl : list addr)
  (cs : list dict) :
  closed_under s C -> ~ C p -> Forall C cl ->
  Forall2 (treeof s) cl cs -> Forall2 (treeof (append_child s p h)) cl cs.
Proof.
  intros Hclosed Hp Hcl H. induction H as [|c t cl cs [d Hd] _ IH]; constructor.
  - exists d. rewrite (to_dict_frame s C p h Hclosed Hp d c); [exact Hd|].
    apply Forall_cons in Hcl as [Hc _]. exact Hc.
  - apply IH. apply Forall_cons in Hcl as [_ Hcl]. exact Hcl.
Qed.

Lemma closed_under_append_child (s : store) (C : addr -> Prop) (p h : addr) :
  closed_under s C -> ~ C p -> closed_under (append_child s p h) C.
Proof.
  intros Hclosed Hp x Hx. rewrite lookup_append_child_ne by (intros ->; contradiction).
  apply Hclosed, Hx.
Qed.

Lemma spine_mono (s : store) (C C' : addr -> Prop) (path : list addr) :
  (forall x, C x -> C' x) ->
  forall above suffix total,
    spine s C above suffix path total -> spine s C' above suffix path total.
Proof.
  intros Hsub. induction path as [|a rest IH]; intros above suffix total H; [exact H|].
  destruct H as (n & cl & cs & Hn & Hch & Hcl & Hcs & Hrest).
  exists n, cl, cs. repeat split; try assumption.
  - eapply Forall_impl; [exact Hcl|]. exact Hsub.
  - apply IH, Hrest.
Qed.

(** A node added at the end of the subtree above is added at the end
    of the whole traversal. *)
Lemma spine_frame (s : store) (C : addr -> Prop) (p h : addr)
  (x : str * Z * option Z) (path : list addr) :
  closed_under s C -> ~ C p -> p ∉ path ->
  forall above suffix total,
    spine s C above suffix path total ->
    spine (append_child s p h) C above (suffix ++ [x]) path (total ++ [x]).
Proof.
  intros Hclosed Hp. induction path as [|a rest IH]; intros Hnotin above suffix total H.
  - simpl in *. rewrite H. reflexivity.
  - destruct H as (n & cl & cs & Hn & Hch & Hcl & Hcs & Hrest).
    exists n, cl, cs. repeat split; try assumption.
    + rewrite lookup_append_child_ne; [exact Hn|].
      intros ->. apply Hnotin. left.
    + apply (treeof_frame s C); assumption.
    + replace (fields n :: concat (List.map flatten cs) ++ suffix ++ [x])
        with ((fields n :: concat (List.map flatten cs) ++ suffix) ++ [x])
        by (simpl; rewrite <- app_assoc; reflexivity).
      apply IH; [|exact Hrest]. intros Hin. apply Hnotin. right. exact Hin.
Qed.

(** [stack.pop()]: the subtree of the popped object is finished. *)
Lemma good_pop (s : store) (root : addr) (C : addr -> Prop) (a : addr)
  (stack : list addr) (avoid : addr -> Prop) (total : list (str * Z * option Z)) :
  good s root C (a :: stack) avoid total ->
  good s root (fun x => C x \/ x = a) stack avoid total.
Proof.
  intros (Hclosed & Hpath & Havoid & Hnodup & Hout & Hspine).
  change ((a :: stack) ++ [root]) with (a :: (stack ++ [root])) in *.
  apply NoDup_cons in Hnodup as [Ha Hnodup].
  destruct Hspine as (n & cl & cs & Hn & Hch & Hcl & Hcs & Hrest).
  rewrite app_nil_r in Hch.
  assert (Hclosed' : closed_under s (fun x => C x \/ x = a)).
  { intros x [Hx| ->].
    - destruct (Hclosed x Hx) as (m & Hm & Hc). exists m. split; [exact Hm|].
      eapply Forall_impl; [exact Hc|]. intros; left; assumption.
    - exists n. split; [exact Hn|]. rewrite Hch.
      eapply Forall_impl; [exact Hcl|]. intros; left; assumption. }
  repeat split.
  - exact Hclosed'.
  - intros x Hx [HC| ->]; [apply (Hpath x); [right; exact Hx|exact HC]|contradiction].
  - intros x Hx [HC| ->]; [exact (Havoid x Hx HC)|]. apply (Hout a Hx). left.
  - exact Hnodup.
  - intros x Hx Hin. apply (Hout x Hx). right. exact Hin.
  - destruct (stack ++ [root]) as [|b rest] eqn:E.
    { destruct stack; discriminate E. }
    destruct Hrest as (m & cl' & cs' & Hm & Hch' & Hcl' & Hcs' & Hrest).
    exists m, (cl' ++ [a]), (cs' ++ [Dict (title n) (level n) (page n) cs]).
    repeat split.
    + exact Hm.
    + rewrite app_nil_r. exact Hch'.
    + apply Forall_app. split.
      * eapply Forall_impl; [exact Hcl'|]. intros; left; assumption.
      * constructor; [right; reflexivity|constructor].
    + apply Forall2_app; [exact Hcs'|]. constructor; [|constructor].
      apply treeof_node; [exact Hn|]. rewrite Hch. exact Hcs.
    + apply (spine_mono s C); [intros; left; assumption|].
      replace (fields m
               :: concat (List.map flatten (cs' ++ [Dict (title n) (level n) (page n) cs]))
               ++ [])
        with (fields m :: concat (List.map flatten cs')
              ++ fields n :: concat (List.map flatten cs) ++ []); [exact Hrest|].
      rewrite map_app, concat_app. simpl. rewrite !app_nil_r. reflexivity.
Qed.

Lemma good_pop_while (s s' : store) (root : addr) (lvl : Z) (avoid : addr -> Prop)
  (total : list (str * Z * option Z)) (stack : list addr) :
  forall C, good s root C stack avoid total ->
  exists C', good s root C' (pop_while s' lvl stack) avoid total.
Proof.
  induction stack as [|top rest IH]; intros C H; simpl; [eauto|].
  destruct (lvl <=? level_at s' top); [|eauto].
  apply good_pop in H. apply (IH _ H).
Qed.

(** [parent.children.append(h); stack.append(h)] *)
Lemma good_push (s : store) (root : addr) (C : addr -> Prop) (stack : list addr)
  (h : addr) (nh : HeadingNode) (avoid : addr -> Prop)
  (total : list (str * Z * option Z)) :
  good s root C stack (fun x => x = h \/ avoid x) total ->
  s !! h = Some nh -> children nh = [] -> ~ avoid h ->
  good (append_child s (match stack with top :: _ => top | [] => root end) h)
       root C (h :: stack) avoid (total ++ [fields nh]).
Proof.
  intros (Hclosed & Hpath & Havoid & Hnodup & Hout & Hspine) Hh Hnh Hfresh.
  set (p := match stack with top :: _ => top | [] => root end).
  assert (Epath : exists rest, stack ++ [root] = p :: rest).
  { unfold p. destruct stack; simpl; eauto. }
  destruct Epath as [rest Epath].
  assert (Hp : ~ C p) by (apply Hpath; rewrite Epath; left).
  assert (Hhp : h <> p).
  { intros ->. apply (Hout p); [left; reflexivity|]. rewrite Epath. left. }
  change ((h :: stack) ++ [root]) with (h :: (stack ++ [root])).
  repeat split.
  - apply closed_under_append_child; assumption.
  - intros x Hx. apply elem_of_cons in Hx as [->|Hx].
    + apply Havoid. left. reflexivity.
    + apply Hpath, Hx.
  - intros x Hx. apply Havoid. right. exact Hx.
  - apply NoDup_cons. split; [|exact Hnodup]. apply Hout. left. reflexivity.
  - intros x Hx Hin. apply elem_of_cons in Hin as [->|Hin]; [contradiction|].
    apply (Hout x); [right; exact Hx|exact Hin].
  - change ((h :: stack) ++ [root]) with (h :: (stack ++ [root])).
    rewrite Epath in Hspine, Hnodup. rewrite Epath.
    apply NoDup_cons in Hnodup as [Hprest _].
    destruct Hspine as (n & cl & cs & Hn & Hch & Hcl & Hcs & Hrest).
    rewrite app_nil_r in Hch.
    exists nh, [], []. split; [|split; [|split; [constructor|split; [constructor|]]]].
    + rewrite lookup_append_child_ne by exact Hhp. exact Hh.
    + rewrite Hnh. reflexivity.
    + exists (mkHeadingNode (title n) (level n) (page n) (children n ++ [h])), cl, cs.
      split; [|split; [|split; [|split]]].
      * apply lookup_append_child_eq, Hn.
      * simpl. rewrite Hch. reflexivity.
      * exact Hcl.
      * apply (treeof_frame s C); assumption.
      * change (fields (mkHeadingNode (title n) (level n) (page n) (children n ++ [h])))
          with (fields n).
        replace (fields n :: concat (List.map flatten cs)
                 ++ fields nh :: concat (List.map flatten []) ++ [])
          with ((fields n :: concat (List.map flatten cs) ++ []) ++ [fields nh])
          by (simpl; rewrite !app_nil_r; reflexivity).
        apply spine_frame; assumption.
Qed.

Lemma good_weaken (s : store) (root : addr) (C : addr -> Prop) (stack : list addr)
  (avoid avoid' : addr -> Prop) (total : list (str * Z * option Z)) :
  (forall x, avoid' x -> avoid x) ->
  good s root C stack avoid total -> good s root C stack avoid' total.
Proof.
  intros Hsub (Hclosed & Hpath & Havoid & Hnodup & Hout & Hspine).
  repeat split; try assumption.
  - intros x Hx. apply Havoid, Hsub, Hx.
  - intros x Hx. apply Hout, Hsub, Hx.
Qed.

Lemma good_pop_all (s : store) (root : addr) (avoid : addr -> Prop)
  (total : list (str * Z * option Z)) (stack : list addr) :
  forall C, good s root C stack avoid total ->
  exists C', good s root C' [] avoid total.
Proof.
  induction stack as [|top rest IH]; intros C H; [eauto|].
  apply good_pop in H. apply (IH _ H).
Qed.

(** The loop keeps the traversal of the tree equal to the headings
    read so far. *)
Lemma run_loop_good (s0 : store) (root : addr) (todo : list addr) :
  forall s stack C done,
    good s root C stack (fun x => x ∈ todo)
         (fields ROOT :: List.map (fields_at s0) done) ->
    NoDup todo ->
    (forall x, x ∈ todo -> exists n, s !! x = Some n /\ children n = []) ->
    (forall a, fields_at s a = fields_at s0 a) ->
    exists C',
      good (fst (run_loop root (s, stack) todo)) root C'
           (snd (run_loop root (s, stack) todo)) (fun _ => False)
           (fields ROOT :: List.map (fields_at s0) (done ++ todo))
      /\ forall a, fields_at (fst (run_loop root (s, stack) todo)) a = fields_at s0 a.
Proof.
  induction todo as [|h todo IH]; intros s stack C done Hgood Hnodup Htodo Hfields.
  - exists C. rewrite app_nil_r. split; [|exact Hfields].
    apply (good_weaken _ _ _ _ (fun x => x ∈ [])); [intros x []|exact Hgood].
  - set (stack1 := pop_while s (level_at s h) stack).
    set (p := match stack1 with top :: _ => top | [] => root end).
    change (run_loop root (s, stack) (h :: todo))
      with (run_loop root (append_child s p h, h :: stack1) todo).
    destruct (good_pop_while s s root (level_at s h) _ _ stack C Hgood) as [C1 H1].
    fold stack1 in H1.
    destruct (Htodo h) as (nh & Hnh & Hch); [left|].
    apply NoDup_cons in Hnodup as [Hfresh Hnodup].
    assert (H2 : good (append_child s p h) root C1 (h :: stack1) (fun x => x ∈ todo)
                   ((fields ROOT :: List.map (fields_at s0) done) ++ [fields nh])).
    { apply good_push; try assumption.
      apply (good_weaken _ _ _ _ (fun x => x ∈ h :: todo)); [|exact H1].
      intros x [->|Hx]; [left|right; exact Hx]. }
    assert (Hp : forall x, x ∈ todo -> x <> p).
    { intros x Hx ->. destruct H1 as (_ & _ & _ & _ & Hout & _).
      apply (Hout p); [right; exact Hx|]. unfold p. destruct stack1; simpl; left. }
    replace (done ++ h :: todo) with ((done ++ [h]) ++ todo)
      by (rewrite <- app_assoc; reflexivity).
    apply (IH _ _ C1).
    + rewrite map_app. simpl.
      replace (fields_at s0 h) with (fields nh); [exact H2|].
      rewrite <- Hfields. unfold fields_at. rewrite Hnh. reflexivity.
    + exact Hnodup.
    + intros x Hx. rewrite lookup_append_child_ne by (apply Hp, Hx).
      apply Htodo. right. exact Hx.
    + intros a. rewrite fields_at_append_child. apply Hfields.
Qed.

Lemma fields_at_app (l : list HeadingNode) : forall pre,
  List.map (fields_at (pre ++ l)) (seq (length pre) (length l)) = List.map fields l.
Proof.
  induction l as [|n l IH]; intros pre; [reflexivity|].
  simpl. f_equal.
  - unfold fields_at. rewrite list_lookup_middle by reflexivity. reflexivity.
  - specialize (IH (pre ++ [n])). rewrite <- app_assoc, length_app in IH.
    simpl in IH. rewrite Nat.add_1_r in IH. exact IH.
Qed.

(** For a flat sequence of distinct headings the builder returns, with
    enough levels, one tree; its nodes, parent first and children
    from left to right, are the root followed by the headings in their
    order. *)
Lemma build_tree_spec (s : store) (hs : list addr) :
  flat s hs -> NoDup hs ->
  exists t,
    (forall depth,
       build_tree_markdown_levels depth s hs
       = if Nat.leb (height t) depth then Some t else None)
    /\ flatten t = fields ROOT :: List.map (fields_at s) hs
    /\ (height t <= S (length hs))%nat.
Proof.
  intros Hflat Hnodup.
  destruct (run_loop_good (s ++ [ROOT]) (length s) hs (s ++ [ROOT]) [] (fun _ => False) [])
    as (C & Hgood & Hfields).
  - repeat split.
    + intros x [].
    + intros x _ [].
    + intros x _ [].
    + apply NoDup_singleton.
    + intros x Hx Hin. apply list_elem_of_singleton in Hin. subst x.
      destruct (flat_lookup s hs _ Hflat Hx) as (n & Hn & _).
      apply lookup_lt_Some in Hn. lia.
    + exists ROOT, [], []. repeat split; try constructor.
      apply list_lookup_middle. reflexivity.
  - exact Hnodup.
  - intros x Hx. destruct (flat_lookup s hs x Hflat Hx) as (n & Hn & Hc).
    exists n. split; [|exact Hc].
    rewrite lookup_app_l by (apply lookup_lt_Some in Hn; exact Hn). exact Hn.
  - reflexivity.
  - change (run_loop (length s) (s ++ [ROOT], []) hs) with (build_store s hs) in *.
    destruct (good_pop_all _ _ _ _ _ C Hgood) as (C' & _ & _ & _ & _ & _ & Hspine).
    destruct Hspine as (n & cl & cs & Hn & Hch & _ & Hcs & Htotal).
    rewrite app_nil_r in Hch. simpl in Htotal. rewrite app_nil_r in Htotal.
    assert (Htree : treeof (fst (build_store s hs)) (length s)
                      (Dict (title n) (level n) (page n) cs)).
    { apply treeof_node; [exact Hn|]. rewrite Hch. exact Hcs. }
    assert (Hflatten : flatten (Dict (title n) (level n) (page n) cs)
                       = fields ROOT :: List.map (fields_at s) hs).
    { simpl. change (title n, level n, page n) with (fields n). rewrite <- Htotal.
      f_equal. apply map_ext_in. intros a Ha. apply list_elem_of_In in Ha.
      destruct (flat_lookup s hs a Hflat Ha) as (m & Hm & _).
      unfold fields_at. rewrite lookup_app_l by (apply lookup_lt_Some in Hm; exact Hm).
      reflexivity. }
    exists (Dict (title n) (level n) (page n) cs). split; [|split].
    + destruct Htree as [d Hd]. intros depth. unfold build_tree_markdown_levels.
      apply (to_dict_at_depth _ _ d _ Hd).
    + exact Hflatten.
    + pose proof (height_le_size (Dict (title n) (level n) (page n) cs)) as Hsize.
      rewrite Hflatten in Hsize. simpl in Hsize. rewrite length_map in Hsize. exact Hsize.
Qed.

(** X12: for every flat sequence of distinct headings, [build] returns
    one tree with every number of frames that reaches its height (at
    most the number of headings plus one) times the cost of a level (one
    frame where comprehensions are inlined, two where they have a frame
    of their own), and raises [RecursionError] below it; the nodes of
    that tree, parent first and children from left to right, are the
    root followed by the headings in their input order, with their
    titles, levels and pages: no heading is lost, repeated or moved. *)
Theorem build_keeps_sequence (s : store) (hs : list addr) :
  flat s hs -> NoDup hs ->
  exists t,
    (forall own_frame frames,
       build_tree_frames own_frame frames s hs
       = if Nat.leb (frame_cost own_frame * height t) frames then Some t else None)
    /\ flatten t = fields ROOT :: List.map (fields_at s) hs
    /\ (height t <= S (length hs))%nat.
Proof.
  intros Hflat Hnodup.
  destruct (build_tree_spec s hs Hflat Hnodup) as (t & Hdepth & Hflatten & Hheight).
  exists t. split; [|split; [exact Hflatten|exact Hheight]].
  intros own_frame frames. unfold build_tree_frames.
  rewrite to_dict_frames_levels, leb_frames. apply Hdepth.
Qed.

(** The nesting example has height 4: with comprehensions in their own
    frame its tree is returned with 8 frames and not with 7. *)
Lemma build_keeps_sequence_witness :
  exists t,
    build_tree_frames true 8 (nesting_example None None None None None) (seq 0 5)
    = Some t
    /\ build_tree_frames true 7 (nesting_example None None None None None) (seq 0 5)
       = None
    /\ flatten t
       = [(str_of "ROOT", 0, None); (str_of "A", 1, None); (str_of "B", 2, None);
          (str_of "C", 3, None); (str_of "D", 2, None); (str_of "E", 1, None)].
Proof.
  destruct (build_keeps_sequence (nesting_example None None None None None) (seq 0 5))
    as (t & Hframes & Hflatten & Hheight).
  - repeat constructor; eexists; (split; [reflexivity|reflexivity]).
  - apply NoDup_seq.
  - exists t. split; [|split; [reflexivity|exact Hflatten]].
    pose proof (Hframes true 8%nat) as H8.
    destruct (Nat.leb (frame_cost true * height t) 8); [exact H8|].
    vm_compute in H8. discriminate H8.
Defined.

(** X13: for every text, [main]'s pipeline (extract, then build) gets
    its tree whenever the frames left reach seven levels of [to_dict]:
    7 frames where comprehensions are inlined, 14 where they have a
    frame of their own; the nodes of the tree in traversal order are the
    root followed by exactly the headings the extractor found, in text
    order, and each node's level is strictly greater than its
    parent's. *)
Theorem section_tree_keeps_headings (todecimal : char -> option Z)
  (max_str_digits : nat) (own_frame : bool) (frames : nat) (md_text : str) :
  (frame_cost own_frame * 7 <= frames)%nat ->
  exists t,
    section_tree_frames todecimal max_str_digits own_frame frames md_text = Some t
    /\ flatten t
       = fields ROOT
         :: List.map fields (parse_markdown_headings todecimal max_str_digits md_text)
    /\ levels_increase t = true.
Proof.
  intros Hframes. apply levels_allowed_le in Hframes.
  destruct (section_tree_total todecimal max_str_digits _ md_text Hframes)
    as (t & Ht & Hinc).
  exists t. split; [|split; [|exact Hinc]].
  - unfold section_tree_frames, build_tree_frames.
    rewrite to_dict_frames_levels. exact Ht.
  - unfold section_tree in Ht.
    set (hs := parse_markdown_headings todecimal max_str_digits md_text) in *.
    destruct (build_tree_spec hs (seq 0 (length hs))) as (t0 & Hd & Hflatten & _).
    + apply Forall_forall. intros a Ha. apply list_elem_of_In, in_seq in Ha.
      destruct (lookup_lt_is_Some_2 hs a) as [n Hn]; [lia|].
      exists n. split; [exact Hn|].
      assert (Hall : Forall (fun h => children h = []) hs).
      { apply scan_Forall; [|constructor]. intros; reflexivity. }
      rewrite Forall_forall in Hall. apply Hall.
      eapply list_elem_of_lookup_2. exact Hn.
    + apply NoDup_seq.
    + rewrite (Hd _) in Ht.
      destruct (Nat.leb (height t0) (levels_allowed own_frame frames)); [|discriminate].
      injection Ht as <-. rewrite Hflatten. f_equal.
      apply (fields_at_app hs []).
Qed.

(** Two headings on pages 3 and 7, with comprehensions in their own
    frame and 14 frames left. *)
Lemma section_tree_keeps_headings_witness :
  exists t,
    section_tree_frames ascii_decimal 4300 true 14 page_example = Some t
    /\ flatten t = [(str_of "ROOT", 0, None); (str_of "A", 1, Some 3);
                    (str_of "B", 1, Some 7)].
Proof.
  destruct (section_tree_keeps_headings ascii_decimal 4300 true 14 page_example)
    as (t & Ht & Hflatten & _); [simpl; lia|].
  exists t. split; [exact Ht|exact Hflatten].
Defined.

(** * The output path *)

Lemma span_name_app (s a b : str) : span_name s = (a, b) -> s = a ++ b.
Proof.
  revert a b. induction s as [|c s IH]; intros a b H; simpl in H.
  - injection H as <- <-. reflexivity.
  - destruct (N.eqb c DOT || N.eqb c SLASH).
    + injection H as <- <-. reflexivity.
    + destruct (span_name s) as [a' b'] eqn:E. injection H as <- <-.
      simpl. f_equal. apply IH. reflexivity.
Qed.

(** [posixpath.splitext] keeps the promise of the library. *)
Lemma posix_splitext_contract (p : str) : splitext_contract posix_splitext p.
Proof.
  unfold splitext_contract, posix_splitext.
  destruct (span_name (rev p)) as [ext_rev rest] eqn:E.
  apply span_name_app in E.
  destruct rest as [|c before_rev]; [simpl; rewrite app_nil_r; auto|].
  destruct (N.eqb c DOT && existsb _ _) eqn:Hc; [|simpl; rewrite app_nil_r; auto].
  apply andb_prop in Hc as [Hc _]. apply N.eqb_eq in Hc. subst c. simpl. split; [|reflexivity].
  rewrite <- (rev_involutive p), E, rev_app_distr. simpl.
  rewrite <- app_assoc. reflexivity.
Qed.

Section OutPath.

Variable splitext : str -> str * str.
Variable join : list str -> str.

(** X14: without [-o] and without [--basename] (absent or empty), the
    output path is the root that [splitext] gives for the input path
    followed by [_tree.json], and for every [splitext] that splits its
    argument into a root and an extension that is empty or starts with
    a dot (as [posixpath.splitext] does) this string differs from the
    input path string. Only the two strings are compared: nothing is
    said of the files they name. *)
Theorem default_out_path (output basename : option str) (input_path : str) :
  truthy output = false -> truthy basename = false ->
  splitext_contract splitext input_path ->
  out_path splitext join output basename input_path
  = fst (splitext input_path) ++ str_of "_tree.json"
  /\ out_path splitext join output basename input_path <> input_path.
Proof.
  intros Ho Hb [Hsplit Hext]. unfold out_path. rewrite Ho, Hb.
  split; [reflexivity|]. intros E. rewrite <- Hsplit in E at 2.
  apply app_inv_head in E. rewrite <- E in Hext. discriminate Hext.
Qed.

End OutPath.

Lemma default_out_path_witness :
  out_path posix_splitext posix_join (Some []) None (str_of "docs/notes.v2.md")
  = str_of "docs/notes.v2_tree.json".
Proof.
  exact (proj1 (default_out_path posix_splitext posix_join (Some []) None
                  (str_of "docs/notes.v2.md") eq_refl eq_refl
                  (posix_splitext_contract _))).
Defined.

Lemma endswith_index (x : str) : endswith_slash (x ++ str_of "_vector_index") = false.
Proof.
  unfold endswith_slash. rewrite rev_app_distr. reflexivity.
Qed.

(** X15: on a POSIX platform, with [--basename] and no [-o], the output
    path is [storage/openrouter/<basename>_vector_index/section_tree_md_only.json]
    for a basename that does not start with a slash; a basename that
    starts with one leaves the storage directory:
    [<basename>_vector_index/section_tree_md_only.json]. *)
Theorem legacy_out_path (splitext : str -> str * str) (output : option str)
  (c : char) (b input_path : str) :
  truthy output = false ->
  out_path splitext posix_join output (Some (c :: b)) input_path
  = (if N.eqb c SLASH then [] else str_of "storage/openrouter/")
    ++ (c :: b) ++ str_of "_vector_index/section_tree_md_only.json".
Proof.
  intros Ho. unfold out_path. rewrite Ho. simpl truthy. cbv iota.
  unfold posix_join. simpl fold_left. simpl text_of.
  change (posix_join2 (str_of "storage") (str_of "openrouter"))
    with (str_of "storage/openrouter").
  unfold posix_join2 at 2. simpl startswith_slash.
  destruct (N.eqb c SLASH) eqn:Ec.
  - unfold posix_join2. simpl startswith_slash.
    change (c :: b ++ str_of "_vector_index") with ((c :: b) ++ str_of "_vector_index").
    rewrite (endswith_index (c :: b)). simpl. rewrite <- app_assoc. reflexivity.
  - change (match str_of "storage/openrouter" with [] => true | _ => false end
            || endswith_slash (str_of "storage/openrouter")) with false.
    cbv iota. unfold posix_join2. simpl startswith_slash.
    match goal with
    | |- context [endswith_slash ?x] =>
        replace x with ((str_of "storage/openrouter/" ++ c :: b) ++ str_of "_vector_index")
          by (rewrite <- app_assoc; reflexivity)
    end.
    rewrite endswith_index. simpl. rewrite <- !app_assoc. reflexivity.
Qed.

Lemma legacy_out_path_witness :
  out_path posix_splitext posix_join None (Some (str_of "paper")) (str_of "in.md")
  = str_of "storage/openrouter/paper_vector_index/section_tree_md_only.json".
Proof.
  exact (legacy_out_path posix_splitext None 112%N (str_of "aper") (str_of "in.md")
           eq_refl).
Defined.
